(** * Frontend runtime (src/frontend.js): a shallow embedding

    The module is the [Frontend] IIFE of [src/frontend.js].  We embed

    - the path-addressed store ([setData], [getData], [removeData],
      [resetState]) together with the notifications it hands to
      [dispatchDataEvent];
    - the directive compiler for [<data-binding>] elements and the
      binding update of the dispatcher ([applyDataBindingsToElement],
      [updateDataBindings]);
    - the substitution engine ([substituteParams]);
    - the fragment pipeline ([resolveFragmentSource], [loadFragment],
      [loadFragments], [initialize]'s completion signal);
    - the template and behavior registries ([loadTemplates],
      [registerBehaviorElement]).

    JavaScript values are modelled as a tree ([jsval]); objects keep their
    own properties in insertion order.  In the tree, the [in] operator and
    property reads look at own properties only.  Module [Heap] embeds the
    store and the substitution engine a second time, on a heap of objects
    with [Object.prototype] at location [0]: there [in] and reads follow
    the prototype chain (so [toString], [constructor] or [__proto__] are
    found on every plain object) and objects may be shared.  Exceptions
    thrown by the code are the [Throw] outcome of the small error monad
    [result]. *)

From Stdlib Require Import String Ascii List ZArith Bool Arith Lia Permutation.
Import ListNotations.
Open Scope string_scope.
Set Warnings "-register-all".

(** ** JavaScript values and errors *)

Inductive jsval : Type :=
| JUndef
| JNull
| JBool (b : bool)
| JNum (z : Z)
| JStr (s : string)
| JObj (props : list (string * jsval))
  (** a plain object: own enumerable properties in insertion order *)
| JArr (len : nat) (props : list (string * jsval)).
  (** an array: its [length] and its own properties (indices and names) *)

Inductive js_error : Type := TypeError | RangeError | ReferenceError.

Inductive result (A : Type) : Type :=
| Ok (a : A)
| Throw (e : js_error).
Arguments Ok {A} a.
Arguments Throw {A} e.

Definition bind {A B} (m : result A) (k : A -> result B) : result B :=
  match m with Ok a => k a | Throw e => Throw e end.

Notation "x <- m ;; k" := (bind m (fun x => k))
  (at level 61, m at next level, right associativity).

Definition nullish (v : jsval) : bool :=
  match v with JUndef | JNull => true | _ => false end.

(** ** Strings: [split], decimal conversions, array indices *)

(** [s.split(c)] for a one-character separator. *)
Fixpoint split_acc (c : ascii) (s cur : string) : list string :=
  match s with
  | EmptyString => [cur]
  | String a s' =>
      if Ascii.eqb a c then cur :: split_acc c s' ""
      else split_acc c s' (cur ++ String a "")
  end.

Definition split_dot (s : string) : list string := split_acc "." s "".

Fixpoint join (sep : string) (xs : list string) : string :=
  match xs with
  | [] => ""
  | [x] => x
  | x :: xs' => x ++ sep ++ join sep xs'
  end.

Fixpoint nat_str_aux (fuel n : nat) (acc : string) : string :=
  match fuel with
  | 0 => acc
  | S f =>
      let acc' := String (ascii_of_nat (48 + n mod 10)) acc in
      if Nat.ltb n 10 then acc' else nat_str_aux f (n / 10) acc'
  end.

(** Decimal representation, as a template literal or [String] prints it. *)
Definition nat_to_string (n : nat) : string := nat_str_aux (S n) n "".

Definition Z_to_string (z : Z) : string :=
  if (z <? 0)%Z then "-" ++ nat_to_string (Z.to_nat (- z))
  else nat_to_string (Z.to_nat z).

Definition digit_val (a : ascii) : option nat :=
  let n := nat_of_ascii a in
  if Nat.leb 48 n && Nat.leb n 57 then Some (n - 48) else None.

Fixpoint parse_digits (s : string) (acc : nat) : option nat :=
  match s with
  | EmptyString => Some acc
  | String a s' =>
      match digit_val a with
      | Some d => parse_digits s' (acc * 10 + d)
      | None => None
      end
  end.

(** Canonical array-index property names: ["0"] or a decimal numeral
    without leading zero (the 2^32-2 upper bound is not modelled). *)
Definition array_index (k : string) : option nat :=
  match k with
  | EmptyString => None
  | String a s' =>
      match digit_val a with
      | None => None
      | Some 0 => match s' with EmptyString => Some 0 | _ => None end
      | Some d => parse_digits s' d
      end
  end.

(** ** Own properties *)

Fixpoint assoc_find (k : string) (ps : list (string * jsval)) : option jsval :=
  match ps with
  | [] => None
  | (k', v) :: ps' => if String.eqb k k' then Some v else assoc_find k ps'
  end.

Definition has_prop (k : string) (ps : list (string * jsval)) : bool :=
  match assoc_find k ps with Some _ => true | None => false end.

(** Assignment keeps the position of an existing property, appends a new one. *)
Fixpoint assoc_put (k : string) (v : jsval) (ps : list (string * jsval))
  : list (string * jsval) :=
  match ps with
  | [] => [(k, v)]
  | (k', v') :: ps' =>
      if String.eqb k k' then (k', v) :: ps' else (k', v') :: assoc_put k v ps'
  end.

Definition assoc_del (k : string) (ps : list (string * jsval))
  : list (string * jsval) :=
  filter (fun p => negb (String.eqb k (fst p))) ps.

Fixpoint insert_by_index (p : nat * string) (l : list (nat * string))
  : list (nat * string) :=
  match l with
  | [] => [p]
  | q :: l' => if Nat.leb (fst p) (fst q) then p :: l else q :: insert_by_index p l'
  end.

(** [Object.keys] order: integer-like keys ascending, then the other
    keys in insertion order. *)
Definition own_keys (ps : list (string * jsval)) : list string :=
  let idx := fold_right (fun p acc =>
               match array_index (fst p) with
               | Some i => insert_by_index (i, fst p) acc
               | None => acc
               end) [] ps in
  map snd idx ++
  map fst (filter (fun p => match array_index (fst p) with
                            | Some _ => false | None => true end) ps).

(** ** The property operations the store code uses *)

(** [k in o]: a [TypeError] unless [o] is an object. *)
Definition js_in (k : string) (o : jsval) : result bool :=
  match o with
  | JObj ps => Ok (has_prop k ps)
  | JArr _ ps => Ok (String.eqb k "length" || has_prop k ps)
  | _ => Throw TypeError
  end.

(** [o[k]] for [o] neither [null] nor [undefined]. *)
Definition get_prop (o : jsval) (k : string) : jsval :=
  match o with
  | JObj ps => match assoc_find k ps with Some v => v | None => JUndef end
  | JArr n ps =>
      if String.eqb k "length" then JNum (Z.of_nat n)
      else match assoc_find k ps with Some v => v | None => JUndef end
  | JStr s =>
      if String.eqb k "length" then JNum (Z.of_nat (String.length s))
      else match array_index k with
           | Some i => match String.get i s with
                       | Some c => JStr (String c "")
                       | None => JUndef
                       end
           | None => JUndef
           end
  | JUndef | JNull | JBool _ | JNum _ => JUndef
  end.

(** [o[k]]: reading a property of [null] or [undefined] throws. *)
Definition js_get (o : jsval) (k : string) : result jsval :=
  if nullish o then Throw TypeError else Ok (get_prop o k).

(** Values accepted as a new array [length]: non-negative integers and
    booleans (other conversions are approximated by a [RangeError]). *)
Definition to_array_length (v : jsval) : option nat :=
  match v with
  | JNum z => if (0 <=? z)%Z then Some (Z.to_nat z) else None
  | JBool b => Some (if b then 1 else 0)
  | _ => None
  end.

(** [o[k] = v] (sloppy mode: writes to primitives are ignored). *)
Definition js_set (o : jsval) (k : string) (v : jsval) : result jsval :=
  match o with
  | JUndef | JNull => Throw TypeError
  | JObj ps => Ok (JObj (assoc_put k v ps))
  | JArr n ps =>
      if String.eqb k "length" then
        match to_array_length v with
        | Some m =>
            Ok (JArr m (filter (fun p => match array_index (fst p) with
                                         | Some i => Nat.ltb i m
                                         | None => true
                                         end) ps))
        | None => Throw RangeError
        end
      else match array_index k with
           | Some i => Ok (JArr (Nat.max n (S i)) (assoc_put k v ps))
           | None => Ok (JArr n (assoc_put k v ps))
           end
  | _ => Ok o
  end.

(** [delete o[k]] (sloppy mode: deleting [length] of an array is a no-op). *)
Definition js_delete (o : jsval) (k : string) : result jsval :=
  match o with
  | JUndef | JNull => Throw TypeError
  | JObj ps => Ok (JObj (assoc_del k ps))
  | JArr n ps =>
      if String.eqb k "length" then Ok o else Ok (JArr n (assoc_del k ps))
  | _ => Ok o
  end.

(** ** The store: [setData], [getData], [removeData], [resetState]

    [state] is the module-level plain object; the store is that object as a
    [jsval].  Every call of [dispatchDataEvent(type, path, value, oldValue)]
    is recorded as a [data_event]; the work [dispatchDataEvent] does for it
    (binding updates, handlers, the [data:<type>] broadcast) is embedded
    separately below.  Diagnostics written to the console are recorded as
    [log_entry]s. *)

Record data_event : Type := mk_event {
  ev_type : string;
  ev_path : string;
  ev_value : jsval;
  ev_old : jsval
}.

Inductive log_entry : Type := LogError | LogWarn | LogInfo.

Definition empty_state : jsval := JObj [].

(** The [for (i < keys.length - 1)] loop of [setData] and [removeData]:
    [None] is the early [return] taken when a segment is not [in] its
    parent. *)
Fixpoint navigate (o : jsval) (ks : list string) : result (option jsval) :=
  match ks with
  | [] => Ok (Some o)
  | k :: ks' =>
      b <- js_in k o ;;
      if b then (x <- js_get o k ;; navigate x ks') else Ok None
  end.

(** Mutating the object reached by [ks] in place, seen on the tree. *)
Fixpoint update_at (o : jsval) (ks : list string) (f : jsval -> result jsval)
  : result jsval :=
  match ks with
  | [] => f o
  | k :: ks' => x <- js_get o k ;; x' <- update_at x ks' f ;; js_set o k x'
  end.

(** [value.entries()] for an array, [Object.entries(value)] for an object. *)
Definition child_entries (v : jsval) : list (string * jsval) :=
  match v with
  | JArr n ps =>
      map (fun i => (nat_to_string i,
                     match assoc_find (nat_to_string i) ps with
                     | Some x => x | None => JUndef end)) (seq 0 n)
  | JObj ps =>
      map (fun k => (k, match assoc_find k ps with
                        | Some x => x | None => JUndef end)) (own_keys ps)
  | _ => []
  end.

Definition is_object (v : jsval) : bool :=
  match v with JObj _ | JArr _ _ => true | _ => false end.

Definition setData (st : jsval) (path : string) (value : jsval)
  : result (jsval * list data_event * list log_entry) :=
  let keys := split_dot path in
  let init := removelast keys in
  let lastKey := last keys "" in
  nav <- navigate st init ;;
  match nav with
  | None => Ok (st, [], [LogError])
  | Some obj =>
      existed <- js_in lastKey obj ;;
      oldValue <- js_get obj lastKey ;;
      if nullish value then
        if existed then
          st' <- update_at st init (fun o => js_delete o lastKey) ;;
          Ok (st', [mk_event "deleted" path JUndef oldValue], [])
        else Ok (st, [], [LogWarn])
      else
        st' <- update_at st init (fun o => js_set o lastKey value) ;;
        let ev := mk_event (if existed then "changed" else "added")
                           path value oldValue in
        let fan := if is_object value
                   then map (fun kc => mk_event "added" (path ++ "." ++ fst kc)
                                                value JUndef)
                            (child_entries value)
                   else [] in
        Ok (st', ev :: fan, [])
  end.

(** [path.split(".").reduce((o, k) => (o != null ? o[k] : undefined), state)] *)
Fixpoint get_path (o : jsval) (ks : list string) : jsval :=
  match ks with
  | [] => o
  | k :: ks' => get_path (if nullish o then JUndef else get_prop o k) ks'
  end.

Definition getData (st : jsval) (path : string) : jsval :=
  get_path st (split_dot path).

Definition removeData (st : jsval) (path : string)
  : result (jsval * list data_event) :=
  let keys := split_dot path in
  let init := removelast keys in
  let lastKey := last keys "" in
  nav <- navigate st init ;;
  match nav with
  | None => Ok (st, [])
  | Some obj =>
      b <- js_in lastKey obj ;;
      if b then
        oldValue <- js_get obj lastKey ;;
        st' <- update_at st init (fun o => js_delete o lastKey) ;;
        Ok (st', [mk_event "deleted" path JUndef oldValue])
      else Ok (st, [])
  end.

(** [for (const key of Object.keys(state)) { delete state[key]; ... }] *)
Fixpoint reset_keys (ks : list string) (ps : list (string * jsval))
  : list (string * jsval) * list data_event :=
  match ks with
  | [] => (ps, [])
  | k :: ks' =>
      let oldValue := match assoc_find k ps with Some v => v | None => JUndef end in
      let '(ps', evs) := reset_keys ks' (assoc_del k ps) in
      (ps', mk_event "deleted" k JUndef oldValue :: evs)
  end.

(** [state] is always a plain object; other values are left as they are. *)
Definition resetState (st : jsval) : jsval * list data_event :=
  match st with
  | JObj ps => let '(ps', evs) := reset_keys (own_keys ps) ps in (JObj ps', evs)
  | _ => (st, [])
  end.

Definition set_state (r : result (jsval * list data_event * list log_entry))
  (old : jsval) : jsval :=
  match r with Ok (st, _, _) => st | Throw _ => old end.

Example setData_nested_ok :
  getData (set_state (setData (JObj [("a", JObj [])]) "a.b" (JNum 5))
                     empty_state) "a.b" = JNum 5.
Proof. reflexivity. Qed.

Example setData_abort_on_empty :
  setData empty_state "a.b" (JNum 5) = Ok (empty_state, [], [LogError]).
Proof. reflexivity. Qed.

Example setData_fanout :
  setData empty_state "xs" (JArr 2 [("0", JNum 1); ("1", JNum 2)]) =
  Ok (JObj [("xs", JArr 2 [("0", JNum 1); ("1", JNum 2)])],
      [mk_event "added" "xs" (JArr 2 [("0", JNum 1); ("1", JNum 2)]) JUndef;
       mk_event "added" "xs.0" (JArr 2 [("0", JNum 1); ("1", JNum 2)]) JUndef;
       mk_event "added" "xs.1" (JArr 2 [("0", JNum 1); ("1", JNum 2)]) JUndef],
      []).
Proof. reflexivity. Qed.

Example resetState_example :
  resetState (JObj [("b", JNum 1); ("10", JNum 2); ("2", JNull)]) =
  (JObj [], [mk_event "deleted" "2" JUndef JNull;
             mk_event "deleted" "10" JUndef (JNum 2);
             mk_event "deleted" "b" JUndef (JNum 1)]).
Proof. reflexivity. Qed.

(** ** [String(v)] and ASCII case mapping *)

Fixpoint to_string (v : jsval) : string :=
  match v with
  | JUndef => "undefined"
  | JNull => "null"
  | JBool b => if b then "true" else "false"
  | JNum z => Z_to_string z
  | JStr s => s
  | JObj _ => "[object Object]"
  | JArr n ps =>
      (* [Array.prototype.join(",")]: holes, [null], [undefined] print as "" *)
      let conv := (fix go (l : list (string * jsval)) : list (string * string) :=
                     match l with
                     | [] => []
                     | (k, x) :: l' =>
                         (k, if nullish x then "" else to_string x) :: go l'
                     end) ps in
      join "," (map (fun i => match find (fun p => String.eqb (nat_to_string i) (fst p)) conv with
                              | Some (_, s) => s | None => "" end) (seq 0 n))
  end.

(** [arr.join(sep)]. *)
Definition array_join (sep : string) (n : nat) (ps : list (string * jsval)) : string :=
  join sep (map (fun i => match assoc_find (nat_to_string i) ps with
                          | Some x => if nullish x then "" else to_string x
                          | None => "" end) (seq 0 n)).

Definition truthy (v : jsval) : bool :=
  match v with
  | JUndef | JNull => false
  | JBool b => b
  | JNum z => negb (Z.eqb z 0)
  | JStr s => negb (String.eqb s "")
  | JObj _ | JArr _ _ => true
  end.

Definition ascii_lower (a : ascii) : ascii :=
  let n := nat_of_ascii a in
  if Nat.leb 65 n && Nat.leb n 90 then ascii_of_nat (n + 32) else a.

(** [s.toLowerCase()] on ASCII text. *)
Fixpoint to_lower (s : string) : string :=
  match s with
  | EmptyString => EmptyString
  | String a s' => String (ascii_lower a) (to_lower s')
  end.

(** ** DOM attributes *)

Definition attrs := list (string * string).

Fixpoint get_attr (n : string) (xs : attrs) : option string :=
  match xs with
  | [] => None
  | (n', v) :: xs' => if String.eqb n n' then Some v else get_attr n xs'
  end.

Fixpoint put_attr (n v : string) (xs : attrs) : attrs :=
  match xs with
  | [] => [(n, v)]
  | (n', v') :: xs' =>
      if String.eqb n n' then (n', v) :: xs' else (n', v') :: put_attr n v xs'
  end.

(** [el.setAttribute(name, v)] on an HTML element lowercases [name]. *)
Definition set_attribute (n v : string) (xs : attrs) : attrs :=
  put_attr (to_lower n) v xs.

(** [!s] for a string or null attribute value. *)
Definition falsy_str (o : option string) : bool :=
  match o with None => true | Some s => String.eqb s "" end.

(** ** The directive compiler for [<data-binding>] *)

(** A [<data-binding>] child: its node identity and its attributes. *)
Record binding_dir : Type := mk_binding {
  bd_id : nat;
  bd_attrs : attrs
}.

(** An element with immediate [<data-binding>] children: its attributes
    and the directive children still attached to it. *)
Record bound_el : Type := mk_bound {
  be_attrs : attrs;
  be_bindings : list binding_dir
}.

Definition detach (b : binding_dir) (cs : list binding_dir) : list binding_dir :=
  filter (fun c => negb (Nat.eqb (bd_id c) (bd_id b))) cs.

(** [applyDataBindingsToElement(parent, bindings)].  The branch for a
    directive without [key] or [target] calls [trigEl.remove()]; [trigEl]
    is not bound in this function's scope (it is the loop variable of
    [applyTriggersToElement]), so the call throws a [ReferenceError].
    The result is the element as the loop leaves it, and the exception. *)
Fixpoint applyDataBindingsToElement (el : bound_el) (bs : list binding_dir)
  : bound_el * option js_error :=
  match bs with
  | [] => (el, None)
  | b :: bs' =>
      let bindingKey := get_attr "key" (bd_attrs b) in
      let bindingTarget := get_attr "target" (bd_attrs b) in
      if falsy_str bindingKey || falsy_str bindingTarget then
        (el, Some ReferenceError)
      else
        let k := match bindingKey with Some k => k | None => "" end in
        let t := match bindingTarget with Some t => t | None => "" end in
        applyDataBindingsToElement
          (mk_bound (set_attribute ("data-binding-" ++ t) k (be_attrs el))
                    (detach b (be_bindings el))) bs'
  end.

(** [buildElementDataBindings(el)]: compile, then detach what is left.
    It is an [async] function: an exception rejects its promise and skips
    the clean-up step. *)
Definition buildElementDataBindings (el : bound_el) : bound_el * option js_error :=
  let bindings := be_bindings el in
  match bindings with
  | [] => (el, None)
  | _ =>
      let '(el', err) := applyDataBindingsToElement el bindings in
      match err with
      | Some e => (el', Some e)
      | None =>
          (fold_left (fun acc b => mk_bound (be_attrs acc) (detach b (be_bindings acc)))
                     bindings el', None)
      end
  end.

(** [buildDataBindings(root)]: [forEach] starts one [async] call per
    element; a rejected call does not stop the [forEach]. *)
Definition buildDataBindings (els : list bound_el) : list (bound_el * option js_error) :=
  map buildElementDataBindings els.

(** ** The binding update of the dispatcher *)

(** The single DOM write each case of [applyDataBinding] performs. *)
Inductive render_op : Type :=
| SetText (s : string)
| SetHtml (s : string)
| SetValue (s : string)
| SetClassName (s : string)
| SetDisplay (s : string)
| SetStyle (prop s : string)
| SetAttr (name s : string)
| RemoveAttr (name : string).

Definition or_empty (v : jsval) : string := if nullish v then "" else to_string v.

Definition is_null_or_false (v : jsval) : bool :=
  match v with JUndef | JNull | JBool false => true | _ => false end.

Definition applyDataBinding (targetPath : list string) (value : jsval)
  : list render_op :=
  match targetPath with
  | "text" :: _ => [SetText (or_empty value)]
  | "html" :: _ => [SetHtml (or_empty value)]
  | "value" :: _ => [SetValue (or_empty value)]
  | "class" :: _ =>
      [SetClassName (match value with
                     | JArr n ps => array_join " " n ps
                     | _ => or_empty value end)]
  | "visible" :: _ => [SetDisplay (if truthy value then "" else "none")]
  | "style" :: rest =>
      match rest with [] => [] | _ => [SetStyle (join "-" rest) (or_empty value)] end
  | "attr" :: rest =>
      match rest with
      | [] => []
      | _ => if is_null_or_false value then [RemoveAttr (join "-" rest)]
             else [SetAttr (join "-" rest) (to_string value)]
      end
  | _ =>
      let name := join "-" targetPath in
      if is_null_or_false value then [RemoveAttr name]
      else [SetAttr name (to_string value)]
  end.

(** [updateDataBindings(key, value)] restricted to one element: the
    writes applied to it, attribute by attribute. *)
Definition updateDataBindings (xs : attrs) (key : string) (value : jsval)
  : list render_op :=
  flat_map (fun a =>
              if String.prefix "data-bind-" (fst a) && String.eqb (snd a) key
              then applyDataBinding (skipn 2 (split_acc "-" (fst a) "")) value
              else []) xs.

Example binding_channel_text :
  updateDataBindings [("data-bind-text", "user.name")] "user.name" (JStr "Bob")
  = [SetText "Bob"].
Proof. reflexivity. Qed.

Example binding_compiled_name :
  fst (applyDataBindingsToElement (mk_bound [] [mk_binding 0 [("key", "user.name"); ("target", "text")]])
         [mk_binding 0 [("key", "user.name"); ("target", "text")]])
  = mk_bound [("data-binding-text", "user.name")] [].
Proof. reflexivity. Qed.

(** ** The substitution engine: [substituteParams]

    [html.replace(/{{\s*([\w.$-]+)\s*}}/g, callback)], scanning left to
    right; where no token starts, the scan moves one character on.  The
    greedy [\s*] and [[\w.$-]+] classes are disjoint, so the regular
    expression needs no backtracking. *)

Definition is_space (a : ascii) : bool :=
  let n := nat_of_ascii a in (Nat.leb 9 n && Nat.leb n 13) || Nat.eqb n 32.

Definition is_key_char (a : ascii) : bool :=
  let n := nat_of_ascii a in
  (Nat.leb 48 n && Nat.leb n 57) || (Nat.leb 65 n && Nat.leb n 90) ||
  (Nat.leb 97 n && Nat.leb n 122) || Nat.eqb n 95 ||
  Nat.eqb n 46 || Nat.eqb n 36 || Nat.eqb n 45.

Fixpoint span (p : ascii -> bool) (s : string) : string * string :=
  match s with
  | EmptyString => ("", "")
  | String a s' =>
      if p a then let '(x, y) := span p s' in (String a x, y) else ("", s)
  end.

Definition is_char (c : ascii) (a : ascii) : bool := Ascii.eqb a c.

(** A match of the regular expression at the start of [s]:
    the captured key, the matched text and the rest of [s]. *)
Definition match_token (s : string) : option (string * string * string) :=
  match s with
  | String a (String b s1) =>
      if is_char "{" a && is_char "{" b then
        let '(sp1, s2) := span is_space s1 in
        let '(key, s3) := span is_key_char s2 in
        let '(sp2, s4) := span is_space s3 in
        match s4 with
        | String c (String d s5) =>
            if negb (String.eqb key "") && is_char "}" c && is_char "}" d
            then Some (key, "{{" ++ sp1 ++ key ++ sp2 ++ "}}", s5)
            else None
        | _ => None
        end
      else None
  | _ => None
  end.

(** The replacement callback. *)
Definition replace_token (st : jsval) (params : list (string * jsval))
  (key m : string) : string :=
  match assoc_find key params with
  | Some v => to_string v
  | None =>
      let stateVal := getData st key in
      if nullish stateVal then m else to_string stateVal
  end.

Fixpoint subst_aux (fuel : nat) (st : jsval) (params : list (string * jsval))
  (s : string) : string :=
  match fuel with
  | 0 => s
  | S f =>
      match s with
      | EmptyString => EmptyString
      | String a s' =>
          match match_token s with
          | Some (key, m, rest) => replace_token st params key m ++ subst_aux f st params rest
          | None => String a (subst_aux f st params s')
          end
      end
  end.

Definition substituteParams (st : jsval) (html : string)
  (params : list (string * jsval)) : string :=
  subst_aux (S (String.length html)) st params html.

Example substitute_doc_example :
  substituteParams (JObj [("user", JObj [("name", JStr "Alice")])])
    "<div class='{{theme}}'>{{ user.name }} ({{missing}})</div>"
    [("theme", JStr "dark"); ("frag_id", JStr "profile")]
  = "<div class='dark'>Alice ({{missing}})</div>".
Proof. reflexivity. Qed.

Example substitute_nested_braces :
  substituteParams empty_state "{{{a}}}" [("a", JStr "x")] = "{x}".
Proof. reflexivity. Qed.

(** ** The store on a heap: the prototype chain and shared objects

    The tree model above reads and writes own properties only, and copies
    values.  In the code, [state] is an ordinary object whose prototype is
    [Object.prototype]: [k in obj] and [obj[k]] also see the names every
    object inherits ([constructor], [toString], [__proto__], ...), a write
    through one of them can reach [Object.prototype] itself, and [setData]
    stores the caller's object by reference.  [Heap] embeds the store, and
    the substitution engine that reads it, on a heap of objects:

    - location [0] is [Object.prototype], with its twelve own properties
      (non-enumerable methods, and the [__proto__] accessor);
    - other objects are plain objects (prototype [Object.prototype]) and
      arrays, with their own properties in insertion order;
    - the methods of [Object.prototype] are the values [HFun name]; their
      own properties are outside the model, and so are the properties an
      array, a string, a number or a boolean inherits from its built-in
      prototype ([Array.prototype], [String.prototype], ...), whose names
      vary between engines.

    An operation that reaches what is outside the model gives [None]. *)
Module Heap.

Definition loc := nat.

Inductive hval : Type :=
| HUndef
| HNull
| HBool (b : bool)
| HNum (z : Z)
| HStr (s : string)
| HRef (l : loc)
  (** a reference to the object at [l] *)
| HFun (name : string).
  (** a built-in method of [Object.prototype] (or the [Object] constructor) *)

(** An own property: a data property with its value and its enumerable
    flag, or the [__proto__] accessor of [Object.prototype]. *)
Inductive pval : Type :=
| PData (v : hval) (enum : bool)
| PProtoAccessor.

Inductive okind : Type := KPlain | KArray (len : nat).

Record hobj : Type := mk_obj {
  o_kind : okind;
  o_proto : option loc;
  o_props : list (string * pval)
}.

Definition heap := list hobj.

Fixpoint replace_nth {A} (l : list A) (n : nat) (x : A) : list A :=
  match l, n with
  | [], _ => []
  | _ :: l', 0 => x :: l'
  | y :: l', S n' => y :: replace_nth l' n' x
  end.

Fixpoint pfind (k : string) (ps : list (string * pval)) : option pval :=
  match ps with
  | [] => None
  | (k', p) :: ps' => if String.eqb k k' then Some p else pfind k ps'
  end.

(** Assigning a data property: an existing one keeps its position and its
    enumerable flag, a new one is appended, enumerable. *)
Fixpoint pput (k : string) (v : hval) (ps : list (string * pval))
  : list (string * pval) :=
  match ps with
  | [] => [(k, PData v true)]
  | (k', p) :: ps' =>
      if String.eqb k k' then
        (k', match p with PData _ e => PData v e | PProtoAccessor => PData v true end) :: ps'
      else (k', p) :: pput k v ps'
  end.

Definition pdel (k : string) (ps : list (string * pval)) : list (string * pval) :=
  filter (fun p => negb (String.eqb k (fst p))) ps.

Definition set_props (o : hobj) (ps : list (string * pval)) : hobj :=
  mk_obj (o_kind o) (o_proto o) ps.

(** [Object.prototype], as a fresh realm has it. *)
Definition object_prototype : hobj :=
  mk_obj KPlain None
    [("constructor", PData (HFun "Object") false);
     ("__defineGetter__", PData (HFun "__defineGetter__") false);
     ("__defineSetter__", PData (HFun "__defineSetter__") false);
     ("hasOwnProperty", PData (HFun "hasOwnProperty") false);
     ("__lookupGetter__", PData (HFun "__lookupGetter__") false);
     ("__lookupSetter__", PData (HFun "__lookupSetter__") false);
     ("isPrototypeOf", PData (HFun "isPrototypeOf") false);
     ("propertyIsEnumerable", PData (HFun "propertyIsEnumerable") false);
     ("toString", PData (HFun "toString") false);
     ("valueOf", PData (HFun "valueOf") false);
     ("__proto__", PProtoAccessor);
     ("toLocaleString", PData (HFun "toLocaleString") false)].

(** A fresh page: [Object.prototype] and the empty [state] object at
    location [1]. *)
Definition init_heap : heap := [object_prototype; mk_obj KPlain (Some 0) []].

(** The property [k] seen from the object at [l]: [Some None] when no
    object of the prototype chain has it, [Some (Some (l', p))] when the
    first one that has it is [l'].  The chain of an array continues in
    [Array.prototype], outside the model. *)
Fixpoint lookup_fuel (fuel : nat) (h : heap) (l : loc) (k : string)
  : option (option (loc * pval)) :=
  match fuel with
  | 0 => None
  | S f =>
      match nth_error h l with
      | None => None
      | Some o =>
          match o_kind o with
          | KArray n =>
              if String.eqb k "length" then Some (Some (l, PData (HNum (Z.of_nat n)) false))
              else match pfind k (o_props o) with
                   | Some p => Some (Some (l, p))
                   | None => None
                   end
          | KPlain =>
              match pfind k (o_props o) with
              | Some p => Some (Some (l, p))
              | None =>
                  match o_proto o with
                  | None => Some None
                  | Some l' => lookup_fuel f h l' k
                  end
              end
          end
      end
  end.

Definition lookup (h : heap) (l : loc) (k : string) : option (option (loc * pval)) :=
  lookup_fuel (length h) h l k.

(** Outcomes: [None] is outside the model, [Some (Throw e)] an exception. *)
Definition hres (A : Type) : Type := option (result A).

Definition ret {A} (a : A) : hres A := Some (Ok a).

Definition hbind {A B} (m : hres A) (k : A -> hres B) : hres B :=
  match m with
  | Some (Ok a) => k a
  | Some (Throw e) => Some (Throw e)
  | None => None
  end.

Notation "x <-- m ;; k" := (hbind m (fun x => k))
  (at level 61, m at next level, right associativity).

Definition hnullish (v : hval) : bool :=
  match v with HUndef | HNull => true | _ => false end.

(** [k in o]. *)
Definition js_in (h : heap) (k : string) (o : hval) : hres bool :=
  match o with
  | HRef l =>
      match lookup h l k with
      | Some None => ret false
      | Some (Some _) => ret true
      | None => None
      end
  | HFun _ => None
  | _ => Some (Throw TypeError)
  end.

(** [o[k]]; the [__proto__] getter gives the prototype of the receiver. *)
Definition js_get (h : heap) (o : hval) (k : string) : hres hval :=
  match o with
  | HUndef | HNull => Some (Throw TypeError)
  | HRef l =>
      match lookup h l k with
      | Some None => ret HUndef
      | Some (Some (_, PData v _)) => ret v
      | Some (Some (_, PProtoAccessor)) =>
          match nth_error h l with
          | Some o => ret (match o_proto o with Some p => HRef p | None => HNull end)
          | None => None
          end
      | None => None
      end
  | HStr s =>
      if String.eqb k "length" then ret (HNum (Z.of_nat (String.length s)))
      else match array_index k with
           | Some i => match String.get i s with
                       | Some c => ret (HStr (String c ""))
                       | None => None
                       end
           | None => None
           end
  | _ => None
  end.

Definition upd (h : heap) (l : loc) (f : hobj -> hres hobj) : hres heap :=
  match nth_error h l with
  | Some o => o' <-- f o ;; ret (replace_nth h l o')
  | None => None
  end.

(** [o[k] = v] in sloppy mode.  On a plain object: an own data property
    is overwritten, an inherited one or a missing one gives a new own
    property; the inherited [__proto__] setter ignores a primitive (a new
    prototype is outside the model).  On an array: [length] truncates, an
    index extends (the 2^32-2 bound is not modelled).  A write to a
    primitive is ignored. *)
Definition js_set (h : heap) (o : hval) (k : string) (v : hval) : hres heap :=
  match o with
  | HUndef | HNull => Some (Throw TypeError)
  | HRef l =>
      match nth_error h l with
      | None => None
      | Some ob =>
          match o_kind ob with
          | KPlain =>
              match lookup h l k with
              | None => None
              | Some None => ret (replace_nth h l (set_props ob (pput k v (o_props ob))))
              | Some (Some (l', PData _ _)) =>
                  if Nat.eqb l' l then ret (replace_nth h l (set_props ob (pput k v (o_props ob))))
                  else ret (replace_nth h l (set_props ob (o_props ob ++ [(k, PData v true)])))
              | Some (Some (_, PProtoAccessor)) =>
                  match v with
                  | HRef _ | HFun _ | HNull => None
                  | _ => ret h
                  end
              end
          | KArray n =>
              if String.eqb k "length" then
                match v with
                | HNum z =>
                    if ((0 <=? z) && (z <? 4294967296))%Z then
                      let m := Z.to_nat z in
                      ret (replace_nth h l
                             (mk_obj (KArray m) (o_proto ob)
                                (filter (fun p => match array_index (fst p) with
                                                  | Some i => Nat.ltb i m
                                                  | None => true
                                                  end) (o_props ob))))
                    else Some (Throw RangeError)
                | _ => None
                end
              else match array_index k with
                   | Some i => ret (replace_nth h l (mk_obj (KArray (Nat.max n (S i))) (o_proto ob)
                                                         (pput k v (o_props ob))))
                   | None =>
                       match pfind k (o_props ob) with
                       | Some _ => ret (replace_nth h l (set_props ob (pput k v (o_props ob))))
                       | None => None
                       end
                   end
          end
      end
  | HFun _ => None
  | _ => ret h
  end.

(** [delete o[k]] in sloppy mode: an own property goes (the [length] of an
    array stays), anything else is left. *)
Definition js_delete (h : heap) (o : hval) (k : string) : hres heap :=
  match o with
  | HUndef | HNull => Some (Throw TypeError)
  | HRef l =>
      match nth_error h l with
      | None => None
      | Some ob =>
          match o_kind ob with
          | KArray _ => if String.eqb k "length" then ret h
                        else ret (replace_nth h l (set_props ob (pdel k (o_props ob))))
          | KPlain => ret (replace_nth h l (set_props ob (pdel k (o_props ob))))
          end
      end
  | HFun _ => None
  | _ => ret h
  end.

(** [Object.keys] order of the enumerable own properties. *)
Definition enum_keys (ps : list (string * pval)) : list string :=
  let ks := map fst (filter (fun p => match snd p with PData _ e => e | _ => false end) ps) in
  let idx := fold_right (fun k acc =>
               match array_index k with
               | Some i => insert_by_index (i, k) acc
               | None => acc
               end) [] ks in
  map snd idx ++ filter (fun k => match array_index k with Some _ => false | None => true end) ks.

(** [String(v)].  A built-in function prints as its native source text;
    a plain object whose [toString] is [Object.prototype.toString] gives
    ["[object Object]"]; other objects are outside the model. *)
Definition to_string (h : heap) (v : hval) : hres string :=
  match v with
  | HUndef => ret "undefined"
  | HNull => ret "null"
  | HBool b => ret (if b then "true" else "false")
  | HNum z => ret (Z_to_string z)
  | HStr s => ret s
  | HFun name => ret ("function " ++ name ++ "() { [native code] }")
  | HRef l =>
      match nth_error h l, lookup h l "toString" with
      | Some o, Some (Some (_, PData (HFun "toString") _)) =>
          match o_kind o with KPlain => ret "[object Object]" | KArray _ => None end
      | _, _ => None
      end
  end.

Record hevent : Type := mk_hevent {
  hev_type : string;
  hev_path : string;
  hev_value : hval;
  hev_old : hval
}.

(** The [for (i < keys.length - 1)] loop of [setData] and [removeData]. *)
Fixpoint navigate (h : heap) (o : hval) (ks : list string) : hres (option hval) :=
  match ks with
  | [] => ret (Some o)
  | k :: ks' =>
      b <-- js_in h k o ;;
      if b then (x <-- js_get h o k ;; navigate h x ks') else ret None
  end.

(** The keys of [value.entries()] for an array, of [Object.entries(value)]
    for a plain object; [None] for a value that is not an object. *)
Definition entry_keys (h : heap) (v : hval) : hres (list string) :=
  match v with
  | HRef l =>
      match nth_error h l with
      | Some o =>
          match o_kind o with
          | KArray n => ret (map nat_to_string (seq 0 n))
          | KPlain => ret (enum_keys (o_props o))
          end
      | None => None
      end
  | _ => ret []
  end.

(** [setData(path, value)] on the heap [h], [state] being the object at
    [st]; the fan-out reads the entries of [value] after the write. *)
Definition setData (h : heap) (st : loc) (path : string) (value : hval)
  : hres (heap * list hevent * list log_entry) :=
  let keys := split_dot path in
  let init := removelast keys in
  let lastKey := last keys "" in
  nav <-- navigate h (HRef st) init ;;
  match nav with
  | None => ret (h, [], [LogError])
  | Some obj =>
      existed <-- js_in h lastKey obj ;;
      oldValue <-- js_get h obj lastKey ;;
      if hnullish value then
        if existed then
          h' <-- js_delete h obj lastKey ;;
          ret (h', [mk_hevent "deleted" path HUndef oldValue], [])
        else ret (h, [], [LogWarn])
      else
        h' <-- js_set h obj lastKey value ;;
        let ev := mk_hevent (if existed then "changed" else "added") path value oldValue in
        ks <-- entry_keys h' value ;;
        ret (h', ev :: map (fun k => mk_hevent "added" (path ++ "." ++ k) value HUndef) ks, [])
  end.

Fixpoint get_path (h : heap) (o : hval) (ks : list string) : hres hval :=
  match ks with
  | [] => ret o
  | k :: ks' => x <-- (if hnullish o then ret HUndef else js_get h o k) ;; get_path h x ks'
  end.

(** [getData(path)]. *)
Definition getData (h : heap) (st : loc) (path : string) : hres hval :=
  get_path h (HRef st) (split_dot path).

(** [removeData(path)]. *)
Definition removeData (h : heap) (st : loc) (path : string) : hres (heap * list hevent) :=
  let keys := split_dot path in
  let init := removelast keys in
  let lastKey := last keys "" in
  nav <-- navigate h (HRef st) init ;;
  match nav with
  | None => ret (h, [])
  | Some obj =>
      b <-- js_in h lastKey obj ;;
      if b then
        oldValue <-- js_get h obj lastKey ;;
        h' <-- js_delete h obj lastKey ;;
        ret (h', [mk_hevent "deleted" path HUndef oldValue])
      else ret (h, [])
  end.

Fixpoint reset_keys (h : heap) (st : loc) (ks : list string) : hres (heap * list hevent) :=
  match ks with
  | [] => ret (h, [])
  | k :: ks' =>
      oldValue <-- js_get h (HRef st) k ;;
      h' <-- js_delete h (HRef st) k ;;
      r <-- reset_keys h' st ks' ;;
      ret (fst r, mk_hevent "deleted" k HUndef oldValue :: snd r)
  end.

(** [resetState()]: [Object.keys(state)] is taken once, before the loop. *)
Definition resetState (h : heap) (st : loc) : hres (heap * list hevent) :=
  match nth_error h st with
  | Some o => reset_keys h st (enum_keys (o_props o))
  | None => None
  end.

(** The replacement callback of [substituteParams(html, params)], [params]
    being the object at [p]; [replace] converts what it returns with
    [String]. *)
Definition replace_token (h : heap) (st p : loc) (key m : string) : hres string :=
  b <-- js_in h key (HRef p) ;;
  if b then (v <-- js_get h (HRef p) key ;; to_string h v)
  else (stateVal <-- getData h st key ;;
        if hnullish stateVal then ret m else to_string h stateVal).

Fixpoint subst_aux (fuel : nat) (h : heap) (st p : loc) (s : string) : hres string :=
  match fuel with
  | 0 => ret s
  | S f =>
      match s with
      | EmptyString => ret EmptyString
      | String a s' =>
          match match_token s with
          | Some (key, m, rest) =>
              r <-- replace_token h st p key m ;; t <-- subst_aux f h st p rest ;; ret (r ++ t)
          | None => t <-- subst_aux f h st p s' ;; ret (String a t)
          end
      end
  end.

Definition substituteParams (h : heap) (st : loc) (html : string) (p : loc) : hres string :=
  subst_aux (S (String.length html)) h st p html.

(** The heaps the store works on: [Object.prototype] at [0] with no
    prototype and the accessor only under [__proto__]; every other object a
    plain object with prototype [Object.prototype] or an array, with
    enumerable data properties; every reference in bounds. *)
Definition val_ok (n : nat) (v : hval) : bool :=
  match v with HRef l => Nat.ltb l n | _ => true end.

Definition prop_ok (n : nat) (proto_obj : bool) (kp : string * pval) : bool :=
  match snd kp with
  | PData v e => val_ok n v && (proto_obj || e)
  | PProtoAccessor => proto_obj && String.eqb (fst kp) "__proto__"
  end.












End Heap.

(** ** The fragment pipeline *)

(** [s.trim()] on ASCII white space. *)
Fixpoint ltrim (s : string) : string :=
  match s with
  | String a s' => if is_space a then ltrim s' else s
  | EmptyString => EmptyString
  end.

Fixpoint rtrim (s : string) : string :=
  match s with
  | String a s' =>
      let r := rtrim s' in
      if String.eqb r "" && is_space a then "" else String a r
  | EmptyString => EmptyString
  end.

Definition trim (s : string) : string := rtrim (ltrim s).

Definition ends_with (suf s : string) : bool :=
  let n := String.length s in
  let m := String.length suf in
  Nat.leb m n && String.eqb (substring (n - m) m s) suf.

(** A [<fragment>] element: node identity, attributes, [innerHTML]. *)
Record frag_el : Type := mk_frag_el {
  fe_node : nat;
  fe_attrs : attrs;
  fe_inner : string
}.

(** The fragment context built by [getFragmentData]. *)
Record frag_ctx : Type := mk_frag_ctx {
  fc_el : frag_el;
  fc_id : option string;
  fc_src : option string;
  fc_condition : option string;
  fc_fallback : option string;
  fc_params : list (string * jsval)
}.

(** [params[n.replace("param-", "")] = frag.getAttribute(n)] on the own
    properties of [params].  [params["__proto__"] = s] runs the inherited
    [__proto__] setter, which ignores a string: no own property.  Any other
    name (an inherited one such as [constructor] included) becomes an own
    data property. *)
Definition param_step (acc : list (string * jsval)) (a : string * string)
  : list (string * jsval) :=
  if String.prefix "param-" (fst a)
  then let k := substring 6 (String.length (fst a) - 6) (fst a) in
       if String.eqb k "__proto__" then acc else assoc_put k (JStr (snd a)) acc
  else acc.

(** [collectParams(frag, src, fragId)]: the own properties of [params]. *)
Definition collectParams (xs : attrs) (src fragId : option string)
  : list (string * jsval) :=
  let ps := fold_left param_step xs [] in
  let ps := match fragId with Some i => assoc_put "frag_id" (JStr i) ps | None => ps end in
  assoc_put "frag_src" (match src with Some s => JStr s | None => JNull end) ps.

Definition getFragmentData (el : frag_el) : frag_ctx :=
  let id := match get_attr "id" (fe_attrs el) with
            | Some "" | None => None
            | Some i => Some i
            end in
  let src := get_attr "src" (fe_attrs el) in
  mk_frag_ctx el id src
    (get_attr "condition" (fe_attrs el))
    (get_attr "fallback" (fe_attrs el))
    (collectParams (fe_attrs el) src id).

(** What evaluating a condition string with [new Function] gives. *)
Inductive cond_result : Type :=
| CondValue (v : jsval)
| CondThrows.

(** The top-level nodes of a parsed wrapper, as far as the loader looks
    at them: [<fragment>] elements, and everything else. *)
Inductive node : Type :=
| NFragment (f : frag_el)
| NOther.

(** The collaborators the loader calls and whose code is not embedded:
    the condition evaluator, the network ([fetchFragment]: the response
    text, or [None] on a network error or a non-ok status), the registered
    Markdown processor (behind [renderMarkdown]'s catch), the HTML parser
    followed by [parseFragment]'s processing of the detached wrapper
    ([None] when that processing throws: [buildTriggers] runs in it
    synchronously, and a trigger whose [on] gives an attribute name
    [setAttribute] rejects throws there, before the wrapper's nodes are
    moved into the document), and the store as the substitution engine
    reads it. *)
Record env : Type := mk_env {
  eval_condition : frag_ctx -> string -> cond_result;
  fetch_text : option string -> option string;
  render_markdown : string -> string;
  parse_nodes : string -> option (list node);
  store : jsval
}.

(** The JavaScript value a loader call returns or accumulates: a count,
    [NaN], or [undefined] (a bare [return;]). *)
Inductive jscount : Type := CNum (n : nat) | CNaN | CUndef.

(** [acc + r] with [acc] a number (or [NaN]). *)
Definition add_count (acc r : jscount) : jscount :=
  match acc, r with
  | CNum a, CNum b => CNum (a + b)
  | _, _ => CNaN
  end.

(** The document-level effects of the loader, in order. *)
Inductive frag_op : Type :=
| OpFetch (url : option string)
| OpReplace (el : nat) (html : string)   (* [el.replaceWith(...nodes of html)] *)
| OpRemove (el : nat)
| OpLoaded (id : option string) (src : option string)   (* [fragment:loaded] *)
| OpPageLoadComplete (count : jscount).

Definition is_markdown (src : string) : bool :=
  ends_with ".md" src || ends_with ".markdown" src || ends_with ".mkd" src.

Section Loader.

Variable E : env.

(** [resolveFragmentSource(fragData)] ([null] is [None]). *)
Definition resolveFragmentSource (frag : frag_ctx) : option string :=
  let src := fc_src frag in
  let fallback := if falsy_str (fc_fallback frag) then None else fc_fallback frag in
  match fc_condition frag with
  | None | Some "" => src
  | Some condition =>
      match eval_condition E frag condition with
      | CondValue ok => if truthy ok then src else fallback
      | CondThrows => fallback
      end
  end.

(** [useInlineFallback(frag)]. *)
Definition useInlineFallback (el : frag_el) : list frag_op :=
  let fallbackContent := trim (fe_inner el) in
  if String.eqb fallbackContent "" then [OpRemove (fe_node el)]
  else [OpReplace (fe_node el) fallbackContent].

(** [loadFragment(element)]: the effects and the returned value.  [fuel]
    bounds the depth of nested fragments; [None] means it ran out (a
    fragment that includes itself makes the code recurse without end).
    Of the steps inside the [try] block, [parseFragment] is the one that
    throws; the [catch] branch then logs, removes the element and returns
    [loadedCount], still [0]. *)
Fixpoint loadFragment (fuel : nat) (el : frag_el) : option (list frag_op * jscount) :=
  match fuel with
  | 0 => None
  | S f =>
      let currentFrag := getFragmentData el in
      let targetSrc := resolveFragmentSource currentFrag in
      if falsy_str targetSrc then Some (useInlineFallback el, CUndef)
      else
        let raw := fetch_text E (fc_src currentFrag) in
        let fetched := [OpFetch (fc_src currentFrag)] in
        if falsy_str raw then Some (app fetched (useInlineFallback el), CUndef)
        else
          let raw := match raw with Some r => r | None => "" end in
          let src := match fc_src currentFrag with
                     | Some s => to_lower s | None => "" end in
          if is_markdown src then
            let html := render_markdown E raw in
            let substituted := substituteParams (store E) html (fc_params currentFrag) in
            Some (app fetched [OpReplace (fe_node el) substituted;
                                 OpLoaded (fc_id currentFrag) (Some src)], CNum 1)
          else
            let substituted := substituteParams (store E) raw (fc_params currentFrag) in
            match parse_nodes E substituted with
            | None => Some (app fetched [OpRemove (fe_node el)], CNum 0)
            | Some newNodes =>
            let fix nested (ns : list node) (acc : list frag_op * jscount)
              : option (list frag_op * jscount) :=
              match ns with
              | [] => Some acc
              | NFragment n :: ns' =>
                  match loadFragment f n with
                  | Some (ops, r) => nested ns' (app (fst acc) ops, add_count (snd acc) r)
                  | None => None
                  end
              | NOther :: ns' => nested ns' acc
              end in
            nested newNodes
              (app fetched [OpReplace (fe_node el) substituted;
                            OpLoaded (fc_id currentFrag) targetSrc], CNum 1)
            end
  end.

(** [loadFragments(root)] over the [fragment[src]] elements it selected. *)
Fixpoint loadFragments (fuel : nat) (els : list frag_el) (acc : list frag_op * jscount)
  : option (list frag_op * jscount) :=
  match els with
  | [] => Some acc
  | el :: els' =>
      match loadFragment fuel el with
      | Some (ops, r) => loadFragments fuel els' (app (fst acc) ops, add_count (snd acc) r)
      | None => None
      end
  end.

(** The end of [initialize]: the fragment pass, then [page:load_complete]. *)
Definition initialize_fragments (fuel : nat) (els : list frag_el) : option (list frag_op) :=
  match loadFragments fuel els ([], CNum 0) with
  | Some (ops, loadedCount) => Some (app ops [OpPageLoadComplete loadedCount])
  | None => None
  end.

End Loader.

(** The default Markdown processor: [text => `<pre>${text}</pre>`]. *)
Definition default_markdown (text : string) : string := "<pre>" ++ text ++ "</pre>".

(** * Template and behavior registries *)

(** A [<template>] element: its node, its [id] attribute and its
    [innerHTML]. *)
Record tmpl := mk_tmpl { t_node : nat; t_id : option string; t_html : string }.

(** The global [<templates id="templates">] container, in child order;
    [container.querySelector(`template#${CSS.escape(id)}`)] returns the first
    child whose [id] attribute is exactly [id]. *)
Definition lookup_template (c : list tmpl) (id : string) : option tmpl :=
  find (fun e => match t_id e with Some i => String.eqb i id | None => false end) c.

(** One iteration of the [for (const tmpl of allTemplates)] loop of
    [loadTemplates]. *)
Definition load_template (c : list tmpl) (t : tmpl) : list tmpl * list log_entry :=
  let id := match t_id t with Some s => trim s | None => "" end in
  if String.eqb id "" then (c, [LogWarn]) else
  match lookup_template c id with
  | Some existing =>
      (c, if String.eqb (t_html existing) (t_html t) then [] else [LogWarn])
  | None => (app c [t], [])
  end.

Fixpoint loadTemplates (c : list tmpl) (ts : list tmpl) : list tmpl * list log_entry :=
  match ts with
  | [] => (c, [])
  | t :: ts' =>
      let (c1, l1) := load_template c t in
      let (c2, l2) := loadTemplates c1 ts' in
      (c2, app l1 l2)
  end.

(** A [<behavior>] element: its [id] attribute and the data of its child
    triggers ([findChildTriggers(bEl).map(getTriggerData)]). *)
Record behavior_el := mk_behavior { b_id : option string; b_triggers : list (list (string * string)) }.

(** [Frontend._behaviors], a [Map] from id to triggers, in insertion order. *)
Definition behaviors := list (string * list (list (string * string))).

Definition behaviors_get (m : behaviors) (id : string) : option (list (list (string * string))) :=
  match find (fun e => String.eqb (fst e) id) m with
  | Some (_, trs) => Some trs
  | None => None
  end.

Definition registerBehaviorElement (m : behaviors) (b : behavior_el) : behaviors * list log_entry :=
  let id := match b_id b with Some s => trim s | None => "" end in
  if String.eqb id "" then (m, [LogWarn]) else
  match behaviors_get m id with
  | Some _ => (m, [LogWarn])
  | None =>
      match b_triggers b with
      | [] => (m, [LogWarn])
      | trs => (app m [(id, trs)], [LogInfo])
      end
  end.

Fixpoint registerBehaviors (m : behaviors) (bs : list behavior_el) : behaviors * list log_entry :=
  match bs with
  | [] => (m, [])
  | b :: bs' =>
      let (m1, l1) := registerBehaviorElement m b in
      let (m2, l2) := registerBehaviors m1 bs' in
      (m2, app l1 l2)
  end.

(** * Auxiliary definitions and concrete inputs *)


Fixpoint all_chars (p : ascii -> bool) (s : string) : bool :=
  match s with
  | EmptyString => true
  | String a s' => p a && all_chars p s'
  end.

(** A key the regular expression captures whole: [[\w.$-]+]. *)
Definition is_key (k : string) : bool :=
  negb (String.eqb k "") && all_chars is_key_char k.

Definition alice_store : jsval := JObj [("user", JObj [("name", JStr "Alice")])].

Definition not_bind_attr (a : string * string) : Prop :=
  String.prefix "data-bind-" (fst a) = false.

Definition malformed_el : bound_el :=
  mk_bound [] [mk_binding 0 [("key", "user.name")];
               mk_binding 1 [("key", "user.age"); ("target", "text")]].

Definition wellformed_el : bound_el :=
  mk_bound [] [mk_binding 2 [("key", "x"); ("target", "text")]].

Definition fetch_from (table : list (string * string)) (u : option string) : option string :=
  match u with
  | Some url => match find (fun p => String.eqb (fst p) url) table with
                | Some (_, body) => Some body
                | None => None
                end
  | None => None
  end.

(** Conditions are evaluated to [false]. *)
Definition env_with (table : list (string * string)) : env :=
  mk_env (fun _ _ => CondValue (JBool false)) (fetch_from table)
         default_markdown (fun _ => Some [NOther]) empty_state.

Definition conditional_frag : frag_el :=
  mk_frag_el 0 [("src", "main.html"); ("condition", "false"); ("fallback", "alt.html")] "".

Definition pages : list (string * string) :=
  [("main.html", "<p>main</p>"); ("alt.html", "<p>alt</p>")].

Definition markdown_frag : frag_el := mk_frag_el 0 [("src", "Guide.MD")] "".

Definition ok_frag : frag_el := mk_frag_el 0 [("src", "ok.html")] "".
Definition broken_frag : frag_el := mk_frag_el 1 [("src", "missing.html")] " <b>fallback</b> ".

Definition card_first : tmpl := mk_tmpl 0 (Some "card") "<p>x</p>".
Definition card_other : tmpl := mk_tmpl 1 (Some " card ") "<p>y</p>".
Definition nav_behavior : behavior_el := mk_behavior (Some "nav") [[("event", "click")]].

(** * The dispatcher: [dispatchDataEvent] *)

(** An element of the document, in document order: node identity and
    attributes (names lower-cased, as the HTML parser and [setAttribute]
    store them).  The document is read as it is when the dispatch starts:
    the handlers are opaque actions. *)
Record doc_el : Type := mk_doc_el { de_node : nat; de_attrs : attrs }.

(** What [dispatchDataEvent] does, in order. *)
Inductive disp_op : Type :=
| DBind (el : nat) (op : render_op)
    (* a write of [applyDataBinding] on element [el] *)
| DInvoke (el : nat) (handler key matchedOn : string) (target : option nat)
    (* [invokeEventAction(handler, el, key, matchedOn, oldValue, value, targetElement)] *)
| DLog (l : log_entry)
| DBroadcast (name path : string) (value oldValue : jsval).
    (* [dispatch(name, { path, value, oldValue })] *)

(** [document.getElementById(id)]: the first element whose ID is [id]; an
    empty [id] attribute gives no ID. *)
Definition getElementById (doc : list doc_el) (id : string) : option nat :=
  if String.eqb id "" then None else
  match find (fun e => match get_attr "id" (de_attrs e) with
                       | Some i => String.eqb i id
                       | None => false
                       end) doc with
  | Some e => Some (de_node e)
  | None => None
  end.

Definition attr_eq (n v : string) (xs : attrs) : bool :=
  match get_attr n xs with Some x => String.eqb x v | None => false end.

Definition str_or_empty (o : option string) : string :=
  match o with Some s => s | None => "" end.

(** The [on-data-<type>-target] lookup, with its warning. *)
Definition lookup_target (doc : list doc_el) (type : string) (el : doc_el)
  : option nat * list disp_op :=
  let targetId := get_attr ("on-data-" ++ type ++ "-target") (de_attrs el) in
  if falsy_str targetId then (None, [])
  else match getElementById doc (str_or_empty targetId) with
       | Some n => (Some n, [])
       | None => (None, [DLog LogWarn])
       end.

(** [invokeEventAction]: the handler runs; whatever it throws is caught
    and logged.  [throws] tells which calls throw. *)
Definition invokeEventAction (throws : disp_op -> bool) (call : disp_op) : list disp_op :=
  call :: (if throws call then [DLog LogError] else []).

(** [updateDataBindings(key, value)] over [document.querySelectorAll("*")]. *)
Definition binding_updates (doc : list doc_el) (path : string) (value : jsval)
  : list disp_op :=
  flat_map (fun el => map (DBind (de_node el)) (updateDataBindings (de_attrs el) path value)) doc.

(** Characters of the attribute names [setAttribute] accepts under every
    version of the DOM rules (after a first letter). *)
Definition name_char (a : ascii) : bool :=
  let n := nat_of_ascii a in
  (Nat.leb 48 n && Nat.leb n 57) || (Nat.leb 65 n && Nat.leb n 90) ||
  (Nat.leb 97 n && Nat.leb n 122) || Nat.eqb n 95 || Nat.eqb n 45 ||
  Nat.eqb n 46 || Nat.eqb n 58.






(** The loop over [[on-data-<type>-key="<path>"]]. *)
Definition direct_handlers (throws : disp_op -> bool) (doc : list doc_el)
  (type path : string) : list disp_op :=
  flat_map (fun el =>
    if attr_eq ("on-data-" ++ type ++ "-key") path (de_attrs el) then
      let handler := get_attr ("on-data-" ++ type) (de_attrs el) in
      if falsy_str handler then []
      else let '(targetElement, w) := lookup_target doc type el in
           app w (invokeEventAction throws
                    (DInvoke (de_node el) (str_or_empty handler) path path targetElement))
    else []) doc.

(** [parts.slice(0, i).join(".") + ".*"] for [i = parts.length - 1] down to [1]. *)
Definition wildcard_keys (path : string) : list string :=
  let parts := split_dot path in
  map (fun i => join "." (firstn i parts) ++ ".*") (rev (seq 1 (length parts - 1))).

(** The loop over [[on-data-child-<type>-key="<key>"]] for each wildcard
    key; the target is looked up (and warned about) but [undefined] is
    passed. *)
Definition child_handlers (throws : disp_op -> bool) (doc : list doc_el)
  (type path : string) : list disp_op :=
  flat_map (fun key =>
    flat_map (fun el =>
      if attr_eq ("on-data-child-" ++ type ++ "-key") key (de_attrs el) then
        let handler := get_attr ("on-data-child-" ++ type) (de_attrs el) in
        if falsy_str handler then []
        else let '(_, w) := lookup_target doc type el in
             app w (invokeEventAction throws
                      (DInvoke (de_node el) (str_or_empty handler) path key None))
      else []) doc) (wildcard_keys path).




(** * The trigger compiler *)

(** The trigger context of [getTriggerData] (the element fields apart). *)
Record trigger : Type := mk_trigger {
  tr_key : option string;
  tr_on : string;
  tr_target : option string;
  tr_condition : option string;
  tr_action : string;
  tr_once : bool;
  tr_prevent : bool;
  tr_stop : bool
}.

(** [s || null] for an attribute value. *)
Definition nonempty (o : option string) : option string :=
  if falsy_str o then None else o.

Definition has_attr (n : string) (xs : attrs) : bool :=
  match get_attr n xs with Some _ => true | None => false end.

Definition getTriggerData (xs : attrs) : option trigger :=
  let on := get_attr "on" xs in
  let action := get_attr "action" xs in
  if falsy_str on || falsy_str action then None
  else Some (mk_trigger (nonempty (get_attr "key" xs)) (str_or_empty on)
                        (nonempty (get_attr "target" xs))
                        (nonempty (get_attr "condition" xs)) (str_or_empty action)
                        (has_attr "once" xs) (has_attr "prevent" xs) (has_attr "stop" xs)).

(** A [<trigger>] child: node identity and attributes. *)
Record trigger_el : Type := mk_trigger_el { tg_id : nat; tg_attrs : attrs }.

(** An element with its attributes and the [<trigger>] children still
    attached to it. *)
Record trigger_host : Type := mk_host { th_attrs : attrs; th_triggers : list trigger_el }.

Definition detach_trigger (t : trigger_el) (cs : list trigger_el) : list trigger_el :=
  filter (fun c => negb (Nat.eqb (tg_id c) (tg_id t))) cs.

(** The attribute writes of one trigger. *)
Definition compile_trigger (t : trigger) (xs : attrs) : attrs :=
  let baseName := "on-" ++ tr_on t in
  let xs := if String.eqb (tr_action t) "" then xs
            else set_attribute baseName (tr_action t) xs in
  let xs := match tr_key t with
            | Some k => set_attribute (baseName ++ "-key") k xs | None => xs end in
  let xs := match tr_target t with
            | Some g => set_attribute (baseName ++ "-target") g xs | None => xs end in
  let xs := if tr_once t then set_attribute (baseName ++ "-once") "" xs else xs in
  let xs := if tr_prevent t then set_attribute (baseName ++ "-prevent") "" xs else xs in
  if tr_stop t then set_attribute (baseName ++ "-stop") "" xs else xs.

(** [applyTriggersToElement(parent, triggers)]: a trigger without [on] or
    [action] is warned about and left in place.  [None]: an [on] value
    with a character outside [name_char]; with whitespace (as in
    [on="a b"]) [setAttribute] throws an [InvalidCharacterError] under
    every version of the DOM rules, the others are outside the model. *)
Fixpoint applyTriggersToElement (h : trigger_host) (ts : list trigger_el)
  : option (trigger_host * list log_entry) :=
  match ts with
  | [] => Some (h, [])
  | trigEl :: ts' =>
      match getTriggerData (tg_attrs trigEl) with
      | None =>
          match applyTriggersToElement h ts' with
          | Some (h', l) => Some (h', LogWarn :: l)
          | None => None
          end
      | Some t =>
          if negb (all_chars name_char (tr_on t)) then None
          else applyTriggersToElement
                 (mk_host (compile_trigger t (th_attrs h))
                          (detach_trigger trigEl (th_triggers h))) ts'
      end
  end.

(** [buildElementTriggers(el)]: compile, then remove the [<trigger>]
    children that are still attached. *)
Definition buildElementTriggers (h : trigger_host) : option (trigger_host * list log_entry) :=
  let triggers := th_triggers h in
  match triggers with
  | [] => Some (h, [])
  | _ =>
      match applyTriggersToElement h triggers with
      | Some (h', l) =>
          Some (mk_host (th_attrs h')
                        (fold_left (fun cs t => detach_trigger t cs) triggers (th_triggers h')), l)
      | None => None
      end
  end.

(** * [loadComponent] *)

(** Its effect on the destination element. *)
Inductive comp_op : Type :=
| CClear                   (* [destination.innerHTML = ""] *)
| CAppend (html : string). (* [destination.append(...nodes of html)] *)

(** [loadComponent(destinationID, templateID, params, clearParent)] in a
    document [doc] whose [templates#templates] container is [container]
    (in standards mode, where [#id] matches case-sensitively).  [None]:
    the call rejects ([CSS.escape("")] leaves the selector [template#],
    which is invalid). *)
Definition loadComponent (doc : list doc_el) (container : option (list tmpl)) (st : jsval)
  (destinationID templateID : string) (params : list (string * jsval)) (clearParent : bool)
  : option (list comp_op * list log_entry) :=
  match getElementById doc destinationID with
  | None => Some ([], [LogWarn])
  | Some _ =>
      match container with
      | None => Some ([], [LogError])
      | Some c =>
          if String.eqb templateID "" then None else
          match lookup_template c templateID with
          | None => Some ([], [LogError])
          | Some t =>
              let html := t_html t in
              if String.eqb (trim html) "" then Some ([CClear], [LogWarn])
              else
                let substituted := substituteParams st html params in
                Some (app (if clearParent then [CClear] else []) [CAppend substituted], [])
          end
      end
  end.

(** * Links and scripts of a loaded fragment *)

(** A top-level node of a fragment as [handleFragmentLinks] and
    [runScripts] see it. *)
Inductive frag_node : Type :=
| FLink (rel href : option string)
| FScript (xs : attrs) (text : string)
| FElement (links : list (option string * option string)) (scripts : list (attrs * string))
    (* any other element: its descendant [<link>]s and [<script>]s, in document order *)
| FText.

Definition opt_str_eqb (a b : option string) : bool :=
  match a, b with
  | Some x, Some y => String.eqb x y
  | None, None => true
  | _, _ => false
  end.

Definition same_link (a b : option string * option string) : bool :=
  opt_str_eqb (fst a) (fst b) && opt_str_eqb (snd a) (snd b).

(** [handleFragmentLinks] on one [<link>]: the [(rel, href)] pairs of the
    links of [document.head]. *)
Definition handle_link (head : list (option string * option string))
  (l : option string * option string) : list (option string * option string) :=
  if existsb (same_link l) head then head else app head [l].

Definition handleFragmentLinks (head : list (option string * option string)) (n : frag_node)
  : list (option string * option string) :=
  match n with
  | FLink rel href => handle_link head (rel, href)
  | FElement ls _ => fold_left handle_link ls head
  | _ => head
  end.

(** What [runScripts] does with one script. *)
Inductive script_op : Type :=
| SHeadAdded (xs : attrs)   (* a copy appended to [document.head] *)
| SDropped                  (* an external script already in [head], removed *)
| SRerun (xs : attrs) (text : string). (* an inline script recreated in place *)

(** [head] is the list of [src] values of [document.head]'s [script[src]]. *)
Definition run_script (head : list string) (s : attrs * string) : list string * list script_op :=
  let '(xs, text) := s in
  let src := get_attr "src" xs in
  if falsy_str src then (head, [SRerun xs text])
  else let src := str_or_empty src in
       if existsb (String.eqb src) head then (head, [SDropped])
       else (app head [src], [SHeadAdded xs]).

Definition run_scripts_list (head : list string) (ss : list (attrs * string))
  : list string * list script_op :=
  fold_left (fun acc s => let '(h, ops) := run_script (fst acc) s in (h, app (snd acc) ops))
            ss (head, []).

Definition runScripts (head : list string) (n : frag_node) : list string * list script_op :=
  match n with
  | FScript xs text => run_script head (xs, text)
  | FElement _ ss => run_scripts_list head ss
  | _ => (head, [])
  end.

(** * [loadCodeElements] *)

Record code_el : Type := mk_code { ce_node : nat; ce_attrs : attrs }.

Inductive code_op : Type :=
| CodeFetch (el : nat) (src : string)
| CodeText (el : nat) (text : string)   (* [el.textContent = text] *)
| CodeHighlight (el : nat)              (* [hljs.highlightElement(el)] *)
| CodeLog (l : log_entry).

Definition mark_loaded (c : code_el) : code_el :=
  mk_code (ce_node c) (put_attr "data-loaded" "true" (ce_attrs c)).

(** One element of [code[src]:not([data-loaded])]; [fetch] is the response
    text, or [None] on a network error or a non-ok status. *)
Definition load_code_block (fetch : string -> option string) (c : code_el)
  : code_el * list code_op :=
  match get_attr "src" (ce_attrs c) with
  | Some src =>
      if has_attr "data-loaded" (ce_attrs c) then (c, [])
      else match fetch src with
           | Some codeText =>
               (mark_loaded c, [CodeFetch (ce_node c) src; CodeText (ce_node c) codeText;
                                CodeHighlight (ce_node c)])
           | None =>
               (c, [CodeFetch (ce_node c) src; CodeLog LogError;
                    CodeText (ce_node c) ("/* Error loading " ++ src ++ " */")])
           end
  | None => (c, [])
  end.

(** One element of [code:not([data-loaded])], selected after the first loop. *)
Definition highlight_inline (c : code_el) : code_el * list code_op :=
  if has_attr "data-loaded" (ce_attrs c) then (c, [])
  else (mark_loaded c, [CodeHighlight (ce_node c)]).

(** [loadCodeElements(root)] over the [<code>] elements of [root];
    [hljs] tells whether Highlight.js is loaded. *)
Definition loadCodeElements (hljs : bool) (fetch : string -> option string)
  (els : list code_el) : list code_el * list code_op :=
  if negb hljs then (els, []) else
  let r1 := map (load_code_block fetch) els in
  let r2 := map highlight_inline (map fst r1) in
  (map fst r2, app (flat_map snd r1) (flat_map snd r2)).

(** * Further concrete inputs *)

(** A [<fragment>] with [param-*] attributes shadowing the reserved names. *)
Definition param_frag : frag_el :=
  mk_frag_el 0 [("src", "/card.html"); ("param-frag_src", "x"); ("param-frag_id", "p");
                ("param-theme", "dark")] "".

(** A document with a direct and a child [changed] handler (both with a
    target that exists) and a text binding of [user.name]. *)
Definition handler_doc : list doc_el :=
  [mk_doc_el 1 [("id", "out")];
   mk_doc_el 2 [("on-data-changed-key", "user.name"); ("on-data-changed", "boom()");
                ("on-data-changed-target", "out")];
   mk_doc_el 3 [("on-data-child-changed-key", "user.*"); ("on-data-child-changed", "log()");
                ("on-data-changed-target", "out")];
   mk_doc_el 4 [("data-bind-text", "user.name")]].

(** The handler of element 2 throws. *)
Definition throws_boom (o : disp_op) : bool :=
  match o with DInvoke 2 _ _ _ _ => true | _ => false end.

(** [<trigger>] children: one with a condition and [once], one missing
    its action, two for [click], and one for a [changed] data event. *)
Definition trig_cond : trigger_el :=
  mk_trigger_el 7 [("on", "click"); ("action", "go()"); ("condition", "ok()"); ("once", "")].
Definition trig_broken : trigger_el := mk_trigger_el 8 [("on", "click")].
Definition trig_first : trigger_el :=
  mk_trigger_el 10 [("on", "click"); ("action", "a()"); ("key", "k1")].
Definition trig_second : trigger_el := mk_trigger_el 11 [("on", "click"); ("action", "b()")].

(** A fragment element with three stylesheet links, two of them equal. *)
Definition links_node : frag_node :=
  FElement [(Some "stylesheet", Some "a.css"); (Some "stylesheet", Some "b.css");
            (Some "stylesheet", Some "b.css")] [].

(** A fragment element with external scripts (one already in the head, one
    twice) and an inline one. *)
Definition scripts_node : frag_node :=
  FElement [] [([("src", "/x.js")], ""); ([("src", "/y.js")], ""); ([("src", "/y.js")], "");
               ([], "run()")].

(** Three [<code>] elements: one whose source loads, one whose fetch fails,
    one inline. *)
Definition code_els : list code_el :=
  [mk_code 1 [("src", "a.js")]; mk_code 2 [("src", "bad.js")]; mk_code 3 []].

Definition code_fetch (src : string) : option string :=
  if String.eqb src "a.js" then Some "let a = 1;" else None.

(** * Predicates used in the statements below *)

(** The containers reached by [ks] from [o] are all plain objects. *)
Fixpoint obj_chain (o : jsval) (ks : list string) : bool :=
  match o with
  | JObj ps =>
      match ks with
      | [] => true
      | k :: ks' => match assoc_find k ps with Some x => obj_chain x ks' | None => false end
      end
  | _ => false
  end.





(** A [<trigger>] that [getTriggerData] rejects. *)
Definition malformed_trigger (te : trigger_el) : bool :=
  match getTriggerData (tg_attrs te) with None => true | Some _ => false end.

(** Every well-formed trigger among [ts] names an event whose
    [on-<on>...] attributes [setAttribute] accepts. *)
Definition trigger_names_accepted (ts : list trigger_el) : bool :=
  forallb (fun te => match getTriggerData (tg_attrs te) with
                     | Some t => all_chars name_char (tr_on t)
                     | None => true
                     end) ts.

(** The attribute names one trigger can write. *)
Definition trigger_names (t : trigger) : list string :=
  map to_lower ["on-" ++ tr_on t; ("on-" ++ tr_on t) ++ "-key"; ("on-" ++ tr_on t) ++ "-target";
                ("on-" ++ tr_on t) ++ "-once"; ("on-" ++ tr_on t) ++ "-prevent";
                ("on-" ++ tr_on t) ++ "-stop"].

Fixpoint distinct_links (l : list (option string * option string)) : bool :=
  match l with
  | [] => true
  | x :: l' => negb (existsb (same_link x) l') && distinct_links l'
  end.

Definition node_links (n : frag_node) : list (option string * option string) :=
  match n with FLink rel href => [(rel, href)] | FElement ls _ => ls | _ => [] end.

Definition node_scripts (n : frag_node) : list (attrs * string) :=
  match n with FScript xs text => [(xs, text)] | FElement _ ss => ss | _ => [] end.

(** * Properties of the store *)

Lemma navigate_app : forall ks1 ks2 o,
  navigate o (ks1 ++ ks2) =
  bind (navigate o ks1)
       (fun r => match r with Some o' => navigate o' ks2 | None => Ok None end).
Proof.
  induction ks1 as [|k ks1 IH]; intros ks2 o; simpl.
  - reflexivity.
  - destruct (js_in k o) as [b|e]; simpl; [|reflexivity].
    destruct b; simpl; [|reflexivity].
    destruct (js_get o k) as [x|e]; simpl; [apply IH|reflexivity].
Qed.

Lemma get_path_undef : forall ks, get_path JUndef ks = JUndef.
Proof. induction ks; simpl; auto. Qed.

Lemma split_acc_nonempty : forall c s cur, split_acc c s cur <> [].
Proof.
  intros c s; induction s as [|a s IH]; intros cur; simpl.
  - discriminate.
  - destruct (Ascii.eqb a c); [discriminate|apply IH].
Qed.

Lemma getData_empty_object : forall p, getData (JObj []) p = JUndef.
Proof.
  intros p; unfold getData.
  destruct (split_dot p) as [|k ks] eqn:E.
  - exfalso; exact (split_acc_nonempty _ _ _ E).
  - simpl; apply get_path_undef.
Qed.

(** ** Own-property lemmas *)

Lemma assoc_find_put_same : forall k v ps, assoc_find k (assoc_put k v ps) = Some v.
Proof.
  intros k v ps; induction ps as [|[k' v'] ps IH]; simpl.
  - now rewrite String.eqb_refl.
  - destruct (String.eqb k k') eqn:E; simpl; rewrite E; [reflexivity|exact IH].
Qed.

Lemma assoc_find_del_same : forall k ps, assoc_find k (assoc_del k ps) = None.
Proof.
  intros k ps; induction ps as [|[k' v'] ps IH]; simpl; [reflexivity|].
  destruct (String.eqb k k') eqn:E; simpl; [exact IH|].
  rewrite E; exact IH.
Qed.




(** ** Resetting the store *)



(** ** C10: the per-child fan-out of [setData] *)



(** * Properties of the substitution engine *)

Lemma str_length_app : forall s1 s2,
  String.length (s1 ++ s2) = String.length s1 + String.length s2.
Proof. induction s1 as [|a s1 IH]; intros s2; simpl; auto. Qed.

Lemma span_app : forall p s, fst (span p s) ++ snd (span p s) = s.
Proof.
  intros p s; induction s as [|a s IH]; simpl; [reflexivity|].
  destruct (p a); [|reflexivity].
  destruct (span p s) as [x y]; simpl in *; now rewrite IH.
Qed.

Lemma match_token_shorter : forall s key m rest,
  match_token s = Some (key, m, rest) -> String.length rest < String.length s.
Proof.
  intros s key m rest H.
  destruct s as [|a [|b s1]]; try discriminate; simpl in H.
  destruct (is_char "{" a && is_char "{" b); [|discriminate].
  pose proof (span_app is_space s1) as E1.
  destruct (span is_space s1) as [sp1 s2]; simpl in E1.
  pose proof (span_app is_key_char s2) as E2.
  destruct (span is_key_char s2) as [k s3]; simpl in E2.
  pose proof (span_app is_space s3) as E3.
  destruct (span is_space s3) as [sp2 s4]; simpl in E3.
  destruct s4 as [|c [|d s5]]; try discriminate.
  destruct (negb (String.eqb k "") && is_char "}" c && is_char "}" d); [|discriminate].
  inversion H; subst rest.
  subst s1 s2 s3; simpl; rewrite !str_length_app; simpl; lia.
Qed.

Section Substitution.

Variable st : jsval.
Variable params : list (string * jsval).

Lemma subst_aux_fuel : forall n m s,
  String.length s < n -> String.length s < m ->
  subst_aux n st params s = subst_aux m st params s.
Proof.
  induction n as [|n IH]; intros m s Hn Hm; [lia|].
  destruct m as [|m]; [lia|]; simpl.
  destruct s as [|a s']; [reflexivity|].
  destruct (match_token (String a s')) as [[[key mt] rest]|] eqn:Hmt.
  - f_equal; apply IH; pose proof (match_token_shorter _ _ _ _ Hmt); lia.
  - f_equal; apply IH; simpl in Hn, Hm; lia.
Qed.

Lemma subst_aux_step : forall f a s,
  subst_aux (S f) st params (String a s) =
  match match_token (String a s) with
  | Some (key, m, rest) => replace_token st params key m ++ subst_aux f st params rest
  | None => String a (subst_aux f st params s)
  end.
Proof. reflexivity. Qed.

Lemma substituteParams_cons : forall a s,
  match_token (String a s) = None ->
  substituteParams st (String a s) params = String a (substituteParams st s params).
Proof.
  intros a s H; unfold substituteParams.
  replace (String.length (String a s)) with (S (String.length s)) by reflexivity.
  rewrite subst_aux_step, H; f_equal; apply subst_aux_fuel; lia.
Qed.

Lemma substituteParams_match : forall s key m rest,
  match_token s = Some (key, m, rest) ->
  substituteParams st s params =
  replace_token st params key m ++ substituteParams st rest params.
Proof.
  intros s key m rest H; unfold substituteParams.
  pose proof (match_token_shorter _ _ _ _ H) as Hl.
  destruct s as [|a s']; [discriminate|].
  replace (String.length (String a s')) with (S (String.length s')) by reflexivity.
  rewrite subst_aux_step, H; f_equal; apply subst_aux_fuel; simpl in *; lia.
Qed.

End Substitution.

Lemma key_char_not_space : forall a, is_key_char a = true -> is_space a = false.
Proof.
  intros [b0 b1 b2 b3 b4 b5 b6 b7] H.
  destruct b0, b1, b2, b3, b4, b5, b6, b7; vm_compute in H |- *; congruence.
Qed.

Lemma span_key_prefix : forall k rest,
  all_chars is_key_char k = true ->
  is_key_char "}" = false ->
  span is_key_char (k ++ "}}" ++ rest) = (k, "}}" ++ rest).
Proof.
  induction k as [|a k IH]; intros rest Hk Hc; simpl in *; [reflexivity|].
  apply Bool.andb_true_iff in Hk as [Ha Hk]; rewrite Ha, IH; auto.
Qed.

Lemma match_token_key : forall k post,
  is_key k = true ->
  match_token ("{{" ++ k ++ "}}" ++ post) = Some (k, "{{" ++ k ++ "}}", post).
Proof.
  intros k post Hk; unfold is_key in Hk.
  apply Bool.andb_true_iff in Hk as [Hne Hall].
  destruct k as [|a k']; [discriminate|].
  simpl in Hall; apply Bool.andb_true_iff in Hall as [Ha Hall'].
  unfold match_token; simpl.
  rewrite (key_char_not_space a Ha); simpl.
  rewrite Ha.
  pose proof (span_key_prefix k' post Hall' eq_refl) as E; simpl in E.
  rewrite E; simpl.
  reflexivity.
Qed.

Lemma substituteParams_plain_prefix : forall st params pre s,
  all_chars (fun a => negb (is_char "{" a)) pre = true ->
  substituteParams st (pre ++ s) params = pre ++ substituteParams st s params.
Proof.
  intros st params pre s; induction pre as [|a pre IH]; intros H; [reflexivity|].
  simpl in H; apply Bool.andb_true_iff in H as [Ha H].
  simpl; rewrite substituteParams_cons.
  - now rewrite IH.
  - unfold match_token.
    destruct (pre ++ s) as [|b r]; [reflexivity|].
    apply Bool.negb_true_iff in Ha; now rewrite Ha.
Qed.

(** * The directive compiler against the dispatcher *)

Lemma updateDataBindings_none : forall xs key value,
  Forall not_bind_attr xs -> updateDataBindings xs key value = [].
Proof.
  intros xs key value H; induction H as [|a xs Ha H IH]; [reflexivity|].
  unfold updateDataBindings in *; simpl.
  unfold not_bind_attr in Ha; rewrite Ha; simpl; exact IH.
Qed.

Lemma put_attr_not_bind : forall n v xs,
  String.prefix "data-bind-" n = false ->
  Forall not_bind_attr xs -> Forall not_bind_attr (put_attr n v xs).
Proof.
  intros n v xs Hn H; induction H as [|[n' v'] xs Ha H IH]; simpl.
  - constructor; [exact Hn|constructor].
  - destruct (String.eqb n n'); constructor; auto.
Qed.

Lemma compiled_name_not_bind : forall t,
  String.prefix "data-bind-" (to_lower ("data-binding-" ++ t)) = false.
Proof. intros t; reflexivity. Qed.

Lemma applyDataBindings_not_bind : forall bs el,
  Forall not_bind_attr (be_attrs el) ->
  Forall not_bind_attr (be_attrs (fst (applyDataBindingsToElement el bs))).
Proof.
  induction bs as [|b bs IH]; intros el H; simpl; [exact H|].
  destruct (falsy_str (get_attr "key" (bd_attrs b)) ||
            falsy_str (get_attr "target" (bd_attrs b))); simpl; [exact H|].
  apply IH; simpl; apply put_attr_not_bind; [apply compiled_name_not_bind|exact H].
Qed.

(** C1 (code_bug): the compiler writes [data-binding-<target>], the
    dispatcher's binding update only reads attributes starting with
    [data-bind-]; for every element compiled from [<data-binding>]
    children (and carrying no [data-bind-*] attribute of its own), no
    store mutation of any key updates it through a binding channel.  At
    [<div><data-binding key="user.name" target="text"></data-binding></div>]
    and [set("user.name", "Bob")], the text is not written, while an
    element carrying [data-bind-text="user.name"] is. *)
Theorem compiled_binding_never_updated :
  (forall xs bs key value,
     Forall not_bind_attr xs ->
     updateDataBindings
       (be_attrs (fst (applyDataBindingsToElement (mk_bound xs bs) bs))) key value = []) /\
  be_attrs (fst (applyDataBindingsToElement
                   (mk_bound [] [mk_binding 0 [("key", "user.name"); ("target", "text")]])
                   [mk_binding 0 [("key", "user.name"); ("target", "text")]]))
    = [("data-binding-text", "user.name")] /\
  updateDataBindings [("data-binding-text", "user.name")] "user.name" (JStr "Bob") = [] /\
  updateDataBindings [("data-bind-text", "user.name")] "user.name" (JStr "Bob")
    = [SetText "Bob"].
Proof.
  split; [|repeat split; reflexivity].
  intros xs bs key value H.
  apply updateDataBindings_none, applyDataBindings_not_bind; exact H.
Qed.

Lemma compiled_binding_never_updated_witness :
  updateDataBindings
    (be_attrs (fst (applyDataBindingsToElement
                      (mk_bound [("id", "name")] [mk_binding 0 [("key", "user.name"); ("target", "text")]])
                      [mk_binding 0 [("key", "user.name"); ("target", "text")]])))
    "user.name" (JStr "Bob") = [].
Proof.
  apply (proj1 compiled_binding_never_updated).
  repeat constructor.
Defined.

(** C7 (code_bug): a [<data-binding>] without [target] followed by a
    well-formed sibling, in an element followed by another compiled
    element.  The pass stops at the malformed directive with a
    [ReferenceError] ([trigEl] is unbound): nothing is logged by the code,
    the malformed directive and its sibling stay attached, the sibling is
    never compiled; only the other element of the document is processed. *)
Theorem malformed_binding_halts_element :
  buildDataBindings [malformed_el; wellformed_el] =
  [(malformed_el, Some ReferenceError);
   (mk_bound [("data-binding-text", "x")] [], None)].
Proof. reflexivity. Qed.

(** * The fragment loader at concrete inputs *)

(** C4 (code_bug): the condition is false and a fallback is given; source
    resolution selects the fallback, but [loadFragment] fetches
    [currentFrag.src] and splices the main source's content in, while the
    [fragment:loaded] event names the fallback. *)
Theorem fallback_source_not_fetched :
  resolveFragmentSource (env_with pages) (getFragmentData conditional_frag) = Some "alt.html" /\
  loadFragment (env_with pages) 3 conditional_frag =
  Some ([OpFetch (Some "main.html"); OpReplace 0 "<p>main</p>";
         OpLoaded None (Some "alt.html")], CNum 1).
Proof. split; reflexivity. Qed.

(** C5 (code_bug): for a structured-text source the [fragment:loaded]
    event carries the lower-cased [src], not the resolved source. *)
Theorem markdown_loaded_event_src :
  resolveFragmentSource (env_with [("Guide.MD", "# Hi")]) (getFragmentData markdown_frag)
    = Some "Guide.MD" /\
  loadFragment (env_with [("Guide.MD", "# Hi")]) 3 markdown_frag =
  Some ([OpFetch (Some "Guide.MD"); OpReplace 0 "<pre># Hi</pre>";
         OpLoaded None (Some "guide.md")], CNum 1).
Proof. split; reflexivity. Qed.

(** C6 (code_bug): one fragment resolves, the next falls back to its
    inline content; [loadFragment] returns [undefined] on the fallback
    path, so the single [page:load_complete] carries [NaN], not [1]. *)
Theorem page_count_nan :
  initialize_fragments (env_with [("ok.html", "<p>x</p>")]) 3 [ok_frag; broken_frag] =
  Some [OpFetch (Some "ok.html"); OpReplace 0 "<p>x</p>"; OpLoaded None (Some "ok.html");
        OpFetch (Some "missing.html"); OpReplace 1 "<b>fallback</b>";
        OpPageLoadComplete CNaN].
Proof. reflexivity. Qed.

(** * Template and behavior registries: first wins *)

Lemma find_app {A} (f : A -> bool) (l1 l2 : list A) :
  find f (app l1 l2) = match find f l1 with Some x => Some x | None => find f l2 end.
Proof.
  induction l1 as [|a l1 IH]; simpl; [reflexivity|].
  destruct (f a); [reflexivity|exact IH].
Qed.

Lemma lookup_template_app : forall c l id e,
  lookup_template c id = Some e -> lookup_template (app c l) id = Some e.
Proof.
  unfold lookup_template; intros c l id e H.
  rewrite find_app, H; reflexivity.
Qed.

Lemma load_template_keeps : forall c t id e,
  lookup_template c id = Some e -> lookup_template (fst (load_template c t)) id = Some e.
Proof.
  intros c t id e H; unfold load_template.
  set (i := match t_id t with Some s => trim s | None => "" end).
  destruct (String.eqb i ""); [exact H|].
  destruct (lookup_template c i); [exact H|].
  apply lookup_template_app; exact H.
Qed.

Lemma loadTemplates_keeps : forall ts c id e,
  lookup_template c id = Some e -> lookup_template (fst (loadTemplates c ts)) id = Some e.
Proof.
  induction ts as [|t ts IH]; intros c id e H; simpl; [exact H|].
  pose proof (load_template_keeps c t id e H) as H1.
  destruct (load_template c t) as [c1 l1]; simpl in H1.
  specialize (IH c1 id e H1).
  destruct (loadTemplates c1 ts) as [c2 l2]; exact IH.
Qed.

Lemma behaviors_get_app : forall m l id trs,
  behaviors_get m id = Some trs -> behaviors_get (app m l) id = Some trs.
Proof.
  unfold behaviors_get; intros m l id trs H.
  rewrite find_app.
  destruct (find _ m) as [[k v]|]; [exact H|discriminate].
Qed.

Lemma registerBehaviorElement_keeps : forall m b id trs,
  behaviors_get m id = Some trs ->
  behaviors_get (fst (registerBehaviorElement m b)) id = Some trs.
Proof.
  intros m b id trs H; unfold registerBehaviorElement.
  set (i := match b_id b with Some s => trim s | None => "" end).
  destruct (String.eqb i ""); [exact H|].
  destruct (behaviors_get m i); [exact H|].
  destruct (b_triggers b); [exact H|].
  apply behaviors_get_app; exact H.
Qed.

Lemma registerBehaviors_keeps : forall bs m id trs,
  behaviors_get m id = Some trs ->
  behaviors_get (fst (registerBehaviors m bs)) id = Some trs.
Proof.
  induction bs as [|b bs IH]; intros m id trs H; simpl; [exact H|].
  pose proof (registerBehaviorElement_keeps m b id trs H) as H1.
  destruct (registerBehaviorElement m b) as [m1 l1]; simpl in H1.
  specialize (IH m1 id trs H1).
  destruct (registerBehaviors m1 bs) as [m2 l2]; exact IH.
Qed.

(** C8 (counterexample): two inline templates with id [card] and the same
    markup; the second is skipped without any diagnostic. *)
Lemma template_duplicate_silent_counterexample :
  loadTemplates [] [mk_tmpl 0 (Some "card") "<p>x</p>"; mk_tmpl 1 (Some "card") "<p>x</p>"]
  = ([mk_tmpl 0 (Some "card") "<p>x</p>"], []).
Proof. reflexivity. Qed.

(** C8 (amended): for templates processed by [loadTemplates], a template
    registered under an id stays the one the lookup of that id returns,
    whatever is loaded afterwards; a later template whose trimmed id is
    already registered is skipped, with a warning exactly when its markup
    differs from the registered one; a template with a new id (without
    surrounding whitespace) is registered.  Behaviors: a registered
    behavior is kept, and a later one with the same trimmed id is skipped
    with a warning. *)
Theorem registry_first_wins :
  (forall c ts id e,
     lookup_template c id = Some e ->
     lookup_template (fst (loadTemplates c ts)) id = Some e) /\
  (forall c t raw id e,
     t_id t = Some raw -> trim raw = id -> id <> "" ->
     lookup_template c id = Some e ->
     load_template c t = (c, if String.eqb (t_html e) (t_html t) then [] else [LogWarn])) /\
  (forall c t id,
     t_id t = Some id -> trim id = id -> id <> "" ->
     lookup_template c id = None ->
     lookup_template (fst (load_template c t)) id = Some t) /\
  (forall m bs id trs,
     behaviors_get m id = Some trs ->
     behaviors_get (fst (registerBehaviors m bs)) id = Some trs) /\
  (forall m b raw id trs,
     b_id b = Some raw -> trim raw = id ->
     behaviors_get m id = Some trs ->
     registerBehaviorElement m b = (m, [LogWarn])).
Proof.
  split; [intros c ts; apply loadTemplates_keeps|].
  split.
  { intros c t raw id e Ht Htr Hne Hl; unfold load_template.
    rewrite Ht, Htr.
    destruct (String.eqb_spec id "") as [E|_]; [contradiction|].
    rewrite Hl; reflexivity. }
  split.
  { intros c t id Ht Htr Hne Hl; unfold load_template.
    rewrite Ht, Htr.
    destruct (String.eqb_spec id "") as [E|_]; [contradiction|].
    rewrite Hl; simpl; unfold lookup_template in *.
    rewrite find_app, Hl; simpl; rewrite Ht, String.eqb_refl; reflexivity. }
  split; [intros m bs; apply registerBehaviors_keeps|].
  intros m b raw id trs Hb Htr Hg; unfold registerBehaviorElement.
  rewrite Hb, Htr.
  destruct (String.eqb id ""); [reflexivity|].
  rewrite Hg; reflexivity.
Qed.

Lemma registry_first_wins_witness :
  lookup_template (fst (loadTemplates [card_first] [card_other])) "card" = Some card_first /\
  load_template [card_first] card_other = ([card_first], [LogWarn]) /\
  lookup_template (fst (load_template [] card_first)) "card" = Some card_first /\
  behaviors_get (fst (registerBehaviors [("nav", [[("event", "tap")]])] [nav_behavior])) "nav"
    = Some [[("event", "tap")]] /\
  registerBehaviorElement [("nav", [[("event", "tap")]])] nav_behavior
    = ([("nav", [[("event", "tap")]])], [LogWarn]).
Proof.
  split; [apply (proj1 registry_first_wins); reflexivity|].
  split; [refine (eq_trans (proj1 (proj2 registry_first_wins)
                  [card_first] card_other " card " "card" card_first _ _ _ _) _);
          [reflexivity|reflexivity|discriminate|reflexivity|reflexivity]|].
  split; [apply (proj1 (proj2 (proj2 registry_first_wins)));
          [reflexivity|reflexivity|discriminate|reflexivity]|].
  split; [apply (proj1 (proj2 (proj2 (proj2 registry_first_wins)))); reflexivity|].
  apply (proj2 (proj2 (proj2 (proj2 registry_first_wins))) _ _ "nav" "nav" [[("event", "tap")]]);
    reflexivity.
Defined.

(** * More of the store *)

Lemma get_path_app : forall ks1 ks2 o,
  get_path o (ks1 ++ ks2) = get_path (get_path o ks1) ks2.
Proof. induction ks1 as [|k ks1 IH]; intros ks2 o; simpl; auto. Qed.

Lemma assoc_find_put_other : forall k k' v ps,
  k <> k' -> assoc_find k (assoc_put k' v ps) = assoc_find k ps.
Proof.
  intros k k' v ps Hne; induction ps as [|[a b] ps IH]; simpl.
  - destruct (String.eqb_spec k k'); [contradiction|reflexivity].
  - destruct (String.eqb_spec k' a) as [E|E]; simpl.
    + subst a; destruct (String.eqb_spec k k'); [contradiction|reflexivity].
    + destruct (String.eqb k a); [reflexivity|exact IH].
Qed.

Lemma assoc_find_del_other : forall k k' ps,
  k <> k' -> assoc_find k (assoc_del k' ps) = assoc_find k ps.
Proof.
  intros k k' ps Hne; induction ps as [|[a b] ps IH]; simpl; [reflexivity|].
  destruct (String.eqb_spec k' a) as [E|E]; simpl.
  - subst a; destruct (String.eqb_spec k k'); [contradiction|exact IH].
  - destruct (String.eqb k a); [reflexivity|exact IH].
Qed.

Lemma split_dot_last : forall path,
  split_dot path = (removelast (split_dot path) ++ [last (split_dot path) ""])%list.
Proof.
  intros path; apply app_removelast_last, split_acc_nonempty.
Qed.

Lemma obj_chain_obj : forall ks o,
  obj_chain o ks = true -> exists ps, get_path o ks = JObj ps.
Proof.
  induction ks as [|k ks IH]; intros [| | | | |ps|n ps] H; simpl in H; try discriminate.
  - now exists ps.
  - destruct (assoc_find k ps) as [x|] eqn:E; [|discriminate].
    simpl; rewrite E; now apply IH.
Qed.

Lemma navigate_chain : forall ks o,
  obj_chain o ks = true -> navigate o ks = Ok (Some (get_path o ks)).
Proof.
  induction ks as [|k ks IH]; intros [| | | | |ps|n ps] H; simpl in H; try discriminate.
  - reflexivity.
  - destruct (assoc_find k ps) as [x|] eqn:E; [|discriminate].
    simpl; unfold has_prop; rewrite E; simpl; now apply IH.
Qed.

Lemma update_chain : forall ks o f r,
  obj_chain o ks = true -> f (get_path o ks) = Ok r ->
  exists o', update_at o ks f = Ok o' /\ get_path o' ks = r.
Proof.
  induction ks as [|k ks IH]; intros [| | | | |ps|n ps] f r H Hf; simpl in H; try discriminate.
  - now exists r.
  - destruct (assoc_find k ps) as [x|] eqn:E; [|discriminate].
    simpl in Hf; rewrite E in Hf.
    destruct (IH x f r H Hf) as [x' [U G]].
    exists (JObj (assoc_put k x' ps)); split.
    + simpl; rewrite E; simpl; rewrite U; reflexivity.
    + simpl; rewrite assoc_find_put_same; exact G.
Qed.

Lemma hd_split_dot : forall path,
  hd "" (split_dot path) = hd (last (split_dot path) "") (removelast (split_dot path)).
Proof.
  intros path; rewrite split_dot_last at 1.
  destruct (removelast (split_dot path)); reflexivity.
Qed.

Lemma update_at_top_obj : forall ps k ks f st',
  update_at (JObj ps) (k :: ks) f = Ok st' -> exists x', st' = JObj (assoc_put k x' ps).
Proof.
  intros ps k ks f st' H; simpl in H.
  destruct (update_at _ ks f) as [x'|e]; simpl in H; [|discriminate].
  inversion H; now exists x'.
Qed.

Lemma getData_put_other : forall ps k x q,
  hd "" (split_dot q) <> k -> getData (JObj (assoc_put k x ps)) q = getData (JObj ps) q.
Proof.
  intros ps k x q H; unfold getData.
  destruct (split_dot q) as [|q0 qs] eqn:E.
  - exfalso; exact (split_acc_nonempty _ _ _ E).
  - simpl in *; now rewrite assoc_find_put_other.
Qed.

Lemma getData_del_other : forall ps k q,
  hd "" (split_dot q) <> k -> getData (JObj (assoc_del k ps)) q = getData (JObj ps) q.
Proof.
  intros ps k q H; unfold getData.
  destruct (split_dot q) as [|q0 qs] eqn:E.
  - exfalso; exact (split_acc_nonempty _ _ _ E).
  - simpl in *; now rewrite assoc_find_del_other.
Qed.

(** X3: when the container reached by the leading segments is not an
    object (a string, number, boolean, [null] or [undefined] stored
    there), [setData] throws a [TypeError] ([lastKey in obj]), whatever
    the value. *)
Theorem setData_primitive_parent_throws : forall st path value o,
  navigate st (removelast (split_dot path)) = Ok (Some o) -> is_object o = false ->
  setData st path value = Throw TypeError.
Proof.
  intros st path value o Hn Ho; unfold setData; cbv zeta.
  rewrite Hn; simpl.
  destruct o; try discriminate; reflexivity.
Qed.

(** X5: [setData(path, null)] (or [undefined]) and [removeData(path)]
    reach the same state with the same notifications, or throw the same
    error, from every state; they differ only in the diagnostics
    [setData] logs. *)
Theorem setData_nullish_as_removeData : forall st path value,
  nullish value = true ->
  match setData st path value with
  | Ok (s, evs, _) => Ok (s, evs)
  | Throw e => Throw e
  end = removeData st path.
Proof.
  intros st path value Hv; unfold setData, removeData; cbv zeta.
  destruct (navigate st (removelast (split_dot path))) as [[obj|]|e]; simpl;
    [|reflexivity|reflexivity].
  destruct (js_in (last (split_dot path) "") obj) as [b|e] eqn:Hin; simpl; [|reflexivity].
  destruct obj; simpl in Hin; try discriminate; simpl; rewrite Hv;
    destruct b; try reflexivity;
    destruct (update_at _ _ _) as [s|e]; reflexivity.
Qed.





Lemma split_acc_sep : forall c s1 s2 cur,
  split_acc c (s1 ++ String c s2) cur = (split_acc c s1 cur ++ split_acc c s2 "")%list.
Proof.
  intros c s1; induction s1 as [|a s1 IH]; intros s2 cur; simpl.
  - now rewrite Ascii.eqb_refl.
  - destruct (Ascii.eqb a c); simpl; [f_equal|]; apply IH.
Qed.

Lemma split_dot_sep : forall p q,
  split_dot (p ++ "." ++ q) = (split_dot p ++ split_dot q)%list.
Proof. intros p q; apply split_acc_sep. Qed.

(** X7: below a path whose value is [null] or [undefined], [getData]
    gives [undefined] for every deeper path (it never throws). *)
Theorem getData_below_nullish : forall st p q,
  nullish (getData st p) = true -> getData st (p ++ "." ++ q) = JUndef.
Proof.
  intros st p q H; unfold getData in *.
  rewrite split_dot_sep, get_path_app.
  destruct (split_dot q) as [|k ks] eqn:E.
  - exfalso; exact (split_acc_nonempty _ _ _ E).
  - simpl; rewrite H; apply get_path_undef.
Qed.

Lemma setData_primitive_parent_throws_witness :
  setData (JObj [("a", JNum 5)]) "a.b" (JNum 1) = Throw TypeError.
Proof.
  apply (setData_primitive_parent_throws _ _ _ (JNum 5)); reflexivity.
Defined.

Lemma setData_nullish_as_removeData_witness :
  match setData alice_store "user.name" JUndef with
  | Ok (s, evs, _) => Ok (s, evs)
  | Throw e => Throw e
  end = removeData alice_store "user.name".
Proof.
  apply (setData_nullish_as_removeData alice_store "user.name" JUndef); reflexivity.
Defined.


Lemma getData_below_nullish_witness :
  getData (JObj [("a", JNull)]) ("a" ++ "." ++ "b.c") = JUndef.
Proof.
  apply (getData_below_nullish _ "a" "b.c"); reflexivity.
Defined.

(** * The store on the heap *)

Module HeapFacts.
Import Heap.

(** ** Heaps, property lists, lookups *)













Lemma pfind_In : forall k ps p, pfind k ps = Some p -> In (k, p) ps.
Proof.
  intros k; induction ps as [|[k' q] ps IH]; intros p H; simpl in *; [discriminate|].
  destruct (String.eqb_spec k k') as [<-|]; [inversion H; now left|right; auto].
Qed.

Lemma pfind_filter_none : forall k ps f,
  f k = false -> pfind k (filter (fun q => f (fst q)) ps) = None.
Proof.
  intros k ps f Hf; induction ps as [|[k' q] ps IH]; simpl; [reflexivity|].
  destruct (String.eqb_spec k k') as [<-|Hne]; [rewrite Hf; exact IH|].
  destruct (f k'); simpl; [apply String.eqb_neq in Hne; now rewrite Hne|]; exact IH.
Qed.

(** [Object.prototype] at [0], a plain object without prototype. *)




(** Two heaps that agree, object by object, on the kind, the prototype and
    the property [k]. *)





(** ** Well-formed heaps *)




Lemma prop_ok_val : forall n b ps k v e,
  forallb (prop_ok n b) ps = true -> pfind k ps = Some (PData v e) -> val_ok n v = true.
Proof.
  intros n b ps k v e H Hf; apply pfind_In in Hf.
  rewrite forallb_forall in H; specialize (H _ Hf); unfold prop_ok in H; simpl in H.
  now apply andb_true_iff in H as [H _].
Qed.








(** ** Resetting the store on the heap *)







(** ** Single steps of the store on the heap *)







(** ** C3 on the heap *)




(** ** C2 on the heap *)

Lemma heap_navigate_app : forall h ks1 ks2 x,
  navigate h x (app ks1 ks2) =
  (r <-- navigate h x ks1 ;; match r with Some y => navigate h y ks2 | None => ret None end).
Proof.
  intros h ks1; induction ks1 as [|k ks1 IH]; intros ks2 x; [reflexivity|].
  cbn [app navigate]; destruct (js_in h k x) as [[[|]|e]|]; cbn [hbind]; try reflexivity.
  destruct (js_get h x k) as [[y|e]|]; cbn [hbind]; [apply IH|reflexivity|reflexivity].
Qed.

(** C2 (code_bug): [__proto__] is not a key of the empty state, but
    [in] finds it on [Object.prototype]: [set("__proto__.x", 5)] is not
    aborted; it writes [x] on [Object.prototype], leaves the state
    object as it was, dispatches an ["added"] notification, and every
    object now has [x] ([get("x")] gives [5]).  A segment that [in] does
    not find aborts the write, with the heap unchanged and no
    notification. *)
Theorem setData_inherited_segment_not_aborted :
  (exists h1,
     setData init_heap 1 "__proto__.x" (HNum 5) =
       ret (h1, [mk_hevent "added" "__proto__.x" (HNum 5) HUndef], []) /\
     nth_error h1 1 = nth_error init_heap 1 /\
     (exists o0, nth_error h1 0 = Some o0 /\ pfind "x" (o_props o0) = Some (PData (HNum 5) true)) /\
     getData h1 1 "x" = ret (HNum 5)) /\
  (forall h st path v ks1 k ks2 o,
     removelast (split_dot path) = app ks1 (k :: ks2) ->
     navigate h (HRef st) ks1 = ret (Some o) ->
     js_in h k o = ret false ->
     setData h st path v = ret (h, [], [LogError])).
Proof.
  split.
  - eexists; split; [reflexivity|split; [reflexivity|split; [eexists; split; reflexivity|reflexivity]]].
  - intros h st path v ks1 k ks2 o Hs Hn Hk.
    unfold setData; cbv zeta; rewrite Hs, heap_navigate_app, Hn; cbn [hbind ret navigate].
    rewrite Hk; reflexivity.
Qed.

Lemma setData_inherited_segment_not_aborted_witness :
  removelast (split_dot "a.b") = app [] ["a"] /\
  navigate init_heap (HRef 1) [] = ret (Some (HRef 1)) /\
  js_in init_heap "a" (HRef 1) = ret false /\
  setData init_heap 1 "a.b" (HNum 5) = ret (init_heap, [], [LogError]).
Proof.
  split; [reflexivity|split; [reflexivity|split; [reflexivity|]]].
  exact (proj2 setData_inherited_segment_not_aborted init_heap 1 "a.b" (HNum 5) [] "a" [] (HRef 1)
           eq_refl eq_refl eq_refl).
Defined.

(** ** C9 on the heap *)







(** ** Writes through a path on the heap *)














End HeapFacts.

(** * Fragment parameters *)

Lemma substring_full : forall s, substring 0 (String.length s) s = s.
Proof. induction s as [|a s IH]; simpl; congruence. Qed.

Lemma prefix_split : forall p s,
  String.prefix p s = true ->
  s = p ++ substring (String.length p) (String.length s - String.length p) s.
Proof.
  induction p as [|a p IH]; intros s H; simpl.
  - now rewrite Nat.sub_0_r, substring_full.
  - destruct s as [|b s]; simpl in H; [discriminate|].
    destruct (ascii_dec a b) as [<-|]; [|discriminate].
    simpl; f_equal; apply IH, H.
Qed.

Lemma get_attr_notin : forall n xs, ~ In n (map fst xs) -> get_attr n xs = None.
Proof.
  induction xs as [|[n' v] xs IH]; intros H; simpl; [reflexivity|].
  destruct (String.eqb_spec n n') as [->|]; [exfalso; apply H; now left|].
  apply IH; intros Hi; apply H; now right.
Qed.

Lemma param_fold : forall xs acc n,
  NoDup (map fst xs) -> n <> "__proto__" ->
  assoc_find n (fold_left param_step xs acc) =
  match get_attr ("param-" ++ n) xs with
  | Some v => Some (JStr v)
  | None => assoc_find n acc
  end.
Proof.
  induction xs as [|[a v] xs IH]; intros acc n Hnd Hp; [reflexivity|].
  inversion Hnd as [|a' l' Ha Hnd']; subst.
  cbn [fold_left]; rewrite IH by assumption.
  change (get_attr ("param-" ++ n) ((a, v) :: xs)) with
    (if String.eqb ("param-" ++ n) a then Some v else get_attr ("param-" ++ n) xs).
  unfold param_step; cbn [fst snd].
  destruct (String.eqb_spec ("param-" ++ n) a) as [<-|Hne].
  - rewrite get_attr_notin by exact Ha.
    replace (String.prefix "param-" ("param-" ++ n)) with true by (destruct n; reflexivity).
    replace (substring 6 (String.length ("param-" ++ n) - 6) ("param-" ++ n)) with n
      by (simpl; now rewrite Nat.sub_0_r, substring_full).
    apply String.eqb_neq in Hp; rewrite Hp.
    apply assoc_find_put_same.
  - destruct (get_attr ("param-" ++ n) xs); [reflexivity|].
    destruct (String.prefix "param-" a) eqn:Hpa; [|reflexivity].
    destruct (String.eqb _ "__proto__"); [reflexivity|].
    apply assoc_find_put_other.
    intros E; apply Hne.
    rewrite (prefix_split _ _ Hpa); simpl; now rewrite E.
Qed.

Lemma param_fold_proto : forall xs acc,
  assoc_find "__proto__" acc = None ->
  assoc_find "__proto__" (fold_left param_step xs acc) = None.
Proof.
  induction xs as [|a xs IH]; intros acc H; [exact H|].
  cbn [fold_left]; apply IH; unfold param_step.
  destruct (String.prefix "param-" (fst a)); [|exact H].
  destruct (String.eqb_spec (substring 6 (String.length (fst a) - 6) (fst a)) "__proto__")
    as [|Hne]; [exact H|].
  rewrite assoc_find_put_other by (intros E; apply Hne; now rewrite E).
  exact H.
Qed.

(** X8: the params of a [<fragment>] (with its attributes, which the DOM
    keeps distinct), as own properties: [frag_src] is always the [src]
    attribute (or [null]), [frag_id] is the non-empty [id] when there is
    one, [__proto__] is never one (the setter ignores the string of
    [param-__proto__]), and every other name [n] is the value of
    [param-n]; a [param-frag_src] attribute is always overridden, a
    [param-frag_id] one only by an [id]. *)
Theorem fragment_params_lookup : forall el,
  NoDup (map fst (fe_attrs el)) ->
  let ps := fc_params (getFragmentData el) in
  assoc_find "frag_src" ps =
    Some (match get_attr "src" (fe_attrs el) with Some s => JStr s | None => JNull end) /\
  (forall i, fc_id (getFragmentData el) = Some i -> assoc_find "frag_id" ps = Some (JStr i)) /\
  assoc_find "__proto__" ps = None /\
  (forall n, n <> "frag_src" -> n <> "__proto__" ->
     (fc_id (getFragmentData el) = None \/ n <> "frag_id") ->
     assoc_find n ps = option_map JStr (get_attr ("param-" ++ n) (fe_attrs el))).
Proof.
  intros el Hnd ps; subst ps; unfold getFragmentData; simpl.
  unfold collectParams; cbv zeta.
  set (id := match get_attr "id" (fe_attrs el) with
             | Some "" | None => None | Some i => Some i end).
  split; [apply assoc_find_put_same|].
  split; [|split].
  - intros i Hi; rewrite Hi.
    rewrite assoc_find_put_other by discriminate.
    apply assoc_find_put_same.
  - rewrite assoc_find_put_other by discriminate.
    destruct id; [rewrite assoc_find_put_other by discriminate|];
      apply param_fold_proto; reflexivity.
  - intros n Hs Hp Hi.
    rewrite assoc_find_put_other by (intros E; apply Hs; now rewrite E).
    assert (Hf : assoc_find n (match id with
                               | Some i => assoc_put "frag_id" (JStr i)
                                             (fold_left param_step (fe_attrs el) [])
                               | None => fold_left param_step (fe_attrs el) []
                               end) =
                 assoc_find n (fold_left param_step (fe_attrs el) [])).
    { destruct Hi as [Hi|Hi]; rewrite ?Hi; [reflexivity|].
      destruct id; [|reflexivity].
      apply assoc_find_put_other; intros E; apply Hi; now rewrite E. }
    rewrite Hf, param_fold by assumption.
    simpl; destruct (get_attr _ (fe_attrs el)); reflexivity.
Qed.

(** * More of the dispatcher *)

Lemma lookup_target_logs : forall doc type el,
  snd (lookup_target doc type el) = [] \/ snd (lookup_target doc type el) = [DLog LogWarn].
Proof.
  intros doc type el; unfold lookup_target.
  destruct (falsy_str _); [now left|].
  destruct (getElementById _ _); [now left|now right].
Qed.








Lemma str_app_nil_r : forall s, s ++ "" = s.
Proof. induction s as [|a s IH]; simpl; congruence. Qed.

Lemma str_app_assoc : forall s1 s2 s3, (s1 ++ s2) ++ s3 = s1 ++ s2 ++ s3.
Proof. induction s1 as [|a s1 IH]; intros s2 s3; simpl; congruence. Qed.

Lemma join_cons2 : forall sep x xs, xs <> [] -> join sep (x :: xs) = x ++ sep ++ join sep xs.
Proof. intros sep x [|y xs] H; [contradiction|reflexivity]. Qed.

Lemma join_split_acc : forall s cur, join "." (split_acc "." s cur) = cur ++ s.
Proof.
  induction s as [|a s IH]; intros cur; simpl.
  - now rewrite str_app_nil_r.
  - destruct (Ascii.eqb_spec a ".") as [->|Ha].
    + rewrite join_cons2 by apply split_acc_nonempty.
      rewrite IH; reflexivity.
    + rewrite IH, str_app_assoc; reflexivity.
Qed.

Lemma join_split_dot : forall s, join "." (split_dot s) = s.
Proof. intros s; apply join_split_acc. Qed.

Lemma join_app : forall l1 l2, l1 <> [] -> l2 <> [] ->
  join "." (l1 ++ l2) = join "." l1 ++ "." ++ join "." l2.
Proof.
  induction l1 as [|a l1 IH]; intros l2 H1 H2; [contradiction|].
  destruct l1 as [|b l1].
  - simpl app; now rewrite join_cons2.
  - rewrite <- app_comm_cons, join_cons2 by (simpl; discriminate).
    rewrite IH by (discriminate || exact H2).
    rewrite (join_cons2 "." a (b :: l1)) by discriminate.
    now rewrite !str_app_assoc.
Qed.

(** X10: the child keys [dispatchDataEvent] tries for a path are exactly
    [q + ".*"] for the proper dot-prefixes [q] of the path: a wildcard
    [user.*] matches every path below [user], never [user] itself. *)
Theorem wildcard_keys_ancestors : forall path k,
  In k (wildcard_keys path) <-> exists q r, path = q ++ "." ++ r /\ k = q ++ ".*".
Proof.
  intros path k; unfold wildcard_keys.
  rewrite in_map_iff; split.
  - intros [i [<- Hi]].
    rewrite <- in_rev, in_seq in Hi.
    set (parts := split_dot path) in *.
    exists (join "." (firstn i parts)), (join "." (skipn i parts)); split; [|reflexivity].
    rewrite <- join_app.
    + now rewrite firstn_skipn; symmetry; apply join_split_dot.
    + intros E; apply (f_equal (@length string)) in E.
      rewrite length_firstn in E; simpl in E; lia.
    + intros E; apply (f_equal (@length string)) in E.
      rewrite length_skipn in E; simpl in E; lia.
  - intros [q [r [-> ->]]].
    exists (length (split_dot q)).
    rewrite split_dot_sep, firstn_app, Nat.sub_diag, firstn_all; simpl firstn.
    rewrite app_nil_r, join_split_dot; split; [reflexivity|].
    rewrite <- in_rev, in_seq, length_app.
    destruct (split_dot q) eqn:Eq; [exfalso; exact (split_acc_nonempty _ _ _ Eq)|].
    destruct (split_dot r) eqn:Er; [exfalso; exact (split_acc_nonempty _ _ _ Er)|].
    simpl; lia.
Qed.

(** X11: a direct [on-data-<type>] handler is called with [key] and
    [matchedOn] both the path; a child handler with [key] the path,
    [matchedOn] one of the wildcard keys of the path, and [targetElement]
    always [undefined], even when its target is found.  The only other
    output of the two loops is diagnostics. *)
Theorem handler_arguments : forall t doc type path o,
  (In o (direct_handlers t doc type path) ->
     match o with
     | DInvoke _ _ k m _ => k = path /\ m = path
     | DLog l => l = LogWarn \/ l = LogError
     | _ => False
     end) /\
  (In o (child_handlers t doc type path) ->
     match o with
     | DInvoke _ _ k m tg => k = path /\ In m (wildcard_keys path) /\ tg = None
     | DLog l => l = LogWarn \/ l = LogError
     | _ => False
     end).
Proof.
  intros t doc type path o; split; intros H.
  - unfold direct_handlers in H; apply in_flat_map in H as [el [_ H]].
    destruct (attr_eq _ _ _); [|contradiction].
    destruct (falsy_str _); [contradiction|].
    destruct (lookup_target doc type el) as [tg w] eqn:E.
    pose proof (lookup_target_logs doc type el) as L; rewrite E in L; simpl in L.
    apply in_app_iff in H as [H|H].
    + destruct L as [->| ->]; [contradiction|].
      destruct H as [<-|[]]; now left.
    + unfold invokeEventAction in H; destruct H as [<-|H]; [now split|].
      destruct (t _); [destruct H as [<-|[]]; now right|contradiction].
  - unfold child_handlers in H; apply in_flat_map in H as [key [Hk H]].
    apply in_flat_map in H as [el [_ H]].
    destruct (attr_eq _ _ _); [|contradiction].
    destruct (falsy_str _); [contradiction|].
    destruct (lookup_target doc type el) as [tg w] eqn:E.
    pose proof (lookup_target_logs doc type el) as L; rewrite E in L; simpl in L.
    apply in_app_iff in H as [H|H].
    + destruct L as [->| ->]; [contradiction|].
      destruct H as [<-|[]]; now left.
    + unfold invokeEventAction in H; destruct H as [<-|H]; [now repeat split|].
      destruct (t _); [destruct H as [<-|[]]; now right|contradiction].
Qed.

(** X12: [updateDataBindings] writes to an element only through one of
    its [data-bind-*] attributes whose value is exactly the changed path:
    bindings of a parent or child path are not refreshed. *)
Theorem binding_updates_exact : forall doc path value n op,
  In (DBind n op) (binding_updates doc path value) ->
  exists e name, In e doc /\ de_node e = n /\ In (name, path) (de_attrs e) /\
                 String.prefix "data-bind-" name = true.
Proof.
  intros doc path value n op H.
  unfold binding_updates in H; apply in_flat_map in H as [e [He H]].
  apply in_map_iff in H as [x [Ex H]]; injection Ex as En _.
  unfold updateDataBindings in H; apply in_flat_map in H as [[name v] [Ha H]].
  simpl in H.
  destruct (String.prefix "data-bind-" name) eqn:Hp; [|contradiction].
  destruct (String.eqb_spec v path) as [->|]; [|contradiction].
  now exists e, name.
Qed.

Ltac in_concrete := vm_compute; repeat (first [left; reflexivity | right]).

Lemma fragment_params_lookup_witness :
  assoc_find "frag_src" (fc_params (getFragmentData param_frag)) = Some (JStr "/card.html") /\
  assoc_find "frag_id" (fc_params (getFragmentData param_frag)) = Some (JStr "p") /\
  assoc_find "theme" (fc_params (getFragmentData param_frag)) = Some (JStr "dark").
Proof.
  assert (Hnd : NoDup (map fst (fe_attrs param_frag))).
  { repeat (apply NoDup_cons; [simpl; intuition discriminate|]); apply NoDup_nil. }
  destruct (fragment_params_lookup param_frag Hnd) as [A [_ [_ C]]].
  split; [exact A|split].
  - apply C; [discriminate|discriminate|left; reflexivity].
  - apply C; [discriminate|discriminate|right; discriminate].
Defined.


Lemma wildcard_keys_ancestors_witness :
  In "user.*" (wildcard_keys "user.profile.name") /\
  ~ In "user.profile.name.*" (wildcard_keys "user.profile.name").
Proof.
  split.
  - apply (proj2 (wildcard_keys_ancestors "user.profile.name" "user.*")).
    exists "user", "profile.name"; split; reflexivity.
  - intros H; apply (proj1 (wildcard_keys_ancestors _ _)) in H.
    destruct H as [q [r [E1 E2]]].
    apply (f_equal String.length) in E1; apply (f_equal String.length) in E2.
    rewrite !str_length_app in E1, E2; simpl in E1, E2; lia.
Defined.

Lemma handler_arguments_witness :
  In (DInvoke 3 "log()" "user.name" "user.*" None)
     (child_handlers throws_boom handler_doc "changed" "user.name") /\
  ("user.name" = "user.name" /\ In "user.*" (wildcard_keys "user.name") /\ @None nat = None).
Proof.
  assert (H : In (DInvoke 3 "log()" "user.name" "user.*" None)
                 (child_handlers throws_boom handler_doc "changed" "user.name")) by in_concrete.
  split; [exact H|].
  exact (proj2 (handler_arguments throws_boom handler_doc "changed" "user.name" _) H).
Defined.

Lemma binding_updates_exact_witness :
  exists e name, In e handler_doc /\ de_node e = 4 /\ In (name, "user.name") (de_attrs e) /\
                 String.prefix "data-bind-" name = true.
Proof.
  apply (binding_updates_exact handler_doc "user.name" (JStr "Bob") 4 (SetText "Bob")).
  in_concrete.
Defined.

(** * More of the trigger compiler *)

Lemma to_lower_app : forall s1 s2, to_lower (s1 ++ s2) = to_lower s1 ++ to_lower s2.
Proof. induction s1 as [|a s1 IH]; intros s2; simpl; congruence. Qed.

Lemma str_app_inj_l : forall p s1 s2, p ++ s1 = p ++ s2 -> s1 = s2.
Proof. induction p as [|a p IH]; intros s1 s2 H; simpl in H; [exact H|injection H; apply IH]. Qed.

Lemma get_put_same : forall n v xs, get_attr n (put_attr n v xs) = Some v.
Proof.
  intros n v xs; induction xs as [|[n' v'] xs IH]; simpl.
  - now rewrite String.eqb_refl.
  - destruct (String.eqb_spec n n') as [<-|Hne]; simpl.
    + now rewrite String.eqb_refl.
    + apply String.eqb_neq in Hne; now rewrite Hne.
Qed.

Lemma get_put_other : forall n m v xs, n <> m -> get_attr n (put_attr m v xs) = get_attr n xs.
Proof.
  intros n m v xs Hne; induction xs as [|[n' v'] xs IH]; simpl.
  - apply String.eqb_neq in Hne; now rewrite Hne.
  - destruct (String.eqb_spec m n') as [<-|Hm]; simpl.
    + apply String.eqb_neq in Hne; now rewrite Hne.
    + now rewrite IH.
Qed.

Lemma put_attr_names : forall m w n v xs,
  In (m, w) (put_attr n v xs) -> In m (map fst xs) \/ m = n.
Proof.
  intros m w n v xs; induction xs as [|[n' v'] xs IH]; simpl; intros H.
  - destruct H as [E|[]]; injection E; auto.
  - destruct (String.eqb n n'); simpl in H; destruct H as [E|H].
    + injection E as -> _; auto.
    + left; right; apply in_map_iff; now exists (m, w).
    + injection E as -> _; auto.
    + destruct (IH H); auto.
Qed.

(** Two attribute names the compiler writes for one trigger differ. *)
Ltac names_differ :=
  match goal with
  | |- to_lower (?b ++ ?s1) <> to_lower (?b ++ ?s2) =>
      rewrite (to_lower_app b s1), (to_lower_app b s2);
      let E := fresh in intros E; apply str_app_inj_l in E; vm_compute in E; discriminate
  | |- to_lower ?b <> to_lower (?b ++ ?s2) =>
      rewrite (to_lower_app b s2);
      let E := fresh in intros E; apply (f_equal String.length) in E;
      rewrite str_length_app in E; simpl (String.length (to_lower s2)) in E; lia
  | |- to_lower (?b ++ ?s2) <> to_lower ?b =>
      rewrite (to_lower_app b s2);
      let E := fresh in intros E; apply (f_equal String.length) in E;
      rewrite str_length_app in E; simpl (String.length (to_lower s2)) in E; lia
  end.

Ltac peel_writes :=
  unfold set_attribute; repeat (rewrite get_put_other by names_differ).

Lemma compile_trigger_get_base : forall t xs,
  tr_action t <> "" ->
  get_attr (to_lower ("on-" ++ tr_on t)) (compile_trigger t xs) = Some (tr_action t).
Proof.
  intros t xs Ha; unfold compile_trigger; cbv zeta.
  apply String.eqb_neq in Ha; rewrite Ha.
  destruct (tr_stop t), (tr_prevent t), (tr_once t), (tr_target t), (tr_key t);
    peel_writes; apply get_put_same.
Qed.

Lemma compile_trigger_get_key : forall t xs,
  get_attr (to_lower (("on-" ++ tr_on t) ++ "-key")) (compile_trigger t xs) =
  match tr_key t with
  | Some k => Some k
  | None => get_attr (to_lower (("on-" ++ tr_on t) ++ "-key")) xs
  end.
Proof.
  intros t xs; unfold compile_trigger; cbv zeta.
  destruct (tr_stop t), (tr_prevent t), (tr_once t), (tr_target t), (tr_key t),
    (String.eqb (tr_action t) ""); peel_writes; try apply get_put_same; reflexivity.
Qed.

Lemma compile_trigger_names : forall t xs m w,
  In (m, w) (compile_trigger t xs) -> In m (map fst xs) \/ In m (trigger_names t).
Proof.
  intros t xs.
  set (P := fun ys : attrs => forall m w, In (m, w) ys ->
                                In m (map fst xs) \/ In m (trigger_names t)).
  assert (P0 : P xs) by (intros m' w' H; left; apply in_map_iff; now exists (m', w')).
  assert (Step : forall ys n v, P ys -> In (to_lower n) (trigger_names t) ->
                   P (set_attribute n v ys)).
  { intros ys n v Hy Hn m' w' H; apply put_attr_names in H as [H| ->]; [|now right].
    apply in_map_iff in H as [[m'' w''] [E H]]; simpl in E; subst m''.
    exact (Hy _ _ H). }
  assert (Hin : forall s, In s ["on-" ++ tr_on t; ("on-" ++ tr_on t) ++ "-key";
                               ("on-" ++ tr_on t) ++ "-target"; ("on-" ++ tr_on t) ++ "-once";
                               ("on-" ++ tr_on t) ++ "-prevent"; ("on-" ++ tr_on t) ++ "-stop"] ->
                  In (to_lower s) (trigger_names t)).
  { intros s Hs; now apply in_map. }
  change (P (compile_trigger t xs)); unfold compile_trigger; cbv zeta.
  destruct (tr_stop t); [apply Step; [|apply Hin; simpl; tauto]|];
  (destruct (tr_prevent t); [apply Step; [|apply Hin; simpl; tauto]|]);
  (destruct (tr_once t); [apply Step; [|apply Hin; simpl; tauto]|]);
  (destruct (tr_target t); [apply Step; [|apply Hin; simpl; tauto]|]);
  (destruct (tr_key t); [apply Step; [|apply Hin; simpl; tauto]|]);
  (destruct (String.eqb (tr_action t) ""); [|apply Step; [|apply Hin; simpl; tauto]]);
  exact P0.
Qed.

Lemma getTriggerData_action : forall xs t, getTriggerData xs = Some t -> tr_action t <> "".
Proof.
  intros xs t H; unfold getTriggerData in H.
  destruct (falsy_str (get_attr "on" xs) || falsy_str (get_attr "action" xs)) eqn:F;
    [discriminate|].
  injection H as <-; simpl.
  apply orb_false_iff in F as [_ F].
  destruct (get_attr "action" xs) as [a|]; simpl in *; [|discriminate].
  now apply String.eqb_neq.
Qed.

Lemma applyTriggers_inv : forall ts h h' l,
  applyTriggersToElement h ts = Some (h', l) ->
  (forall m w, In (m, w) (th_attrs h') ->
     In m (map fst (th_attrs h)) \/
     exists te t, In te ts /\ getTriggerData (tg_attrs te) = Some t /\ In m (trigger_names t)) /\
  incl (th_triggers h') (th_triggers h) /\
  l = repeat LogWarn (length (filter malformed_trigger ts)).
Proof.
  induction ts as [|te ts IH]; intros h h' l H; simpl in H.
  - injection H as <- <-; split; [|split]; [|apply incl_refl|reflexivity].
    intros m w Hm; left; apply in_map_iff; now exists (m, w).
  - unfold malformed_trigger at 1; simpl.
    destruct (getTriggerData (tg_attrs te)) as [t|] eqn:G.
    + destruct (negb (all_chars name_char (tr_on t))); [discriminate|].
      destruct (IH _ _ _ H) as [A [B C]]; split; [|split; [|exact C]].
      * intros m w Hm; destruct (A m w Hm) as [Hm'|[te' [t' [Ht' Rest]]]].
        -- simpl in Hm'; apply in_map_iff in Hm' as [[m' w'] [E Hm']]; simpl in E; subst m'.
           destruct (compile_trigger_names _ _ _ _ Hm') as [Ho|Ho]; [now left|].
           right; exists te, t; split; [now left|split; [exact G|exact Ho]].
        -- right; exists te', t'; split; [now right|exact Rest].
      * intros c Hc; apply B in Hc; simpl in Hc.
        unfold detach_trigger in Hc; apply filter_In in Hc; exact (proj1 Hc).
    + destruct (applyTriggersToElement h ts) as [[h1 l1]|] eqn:E; [|discriminate].
      injection H as <- <-.
      destruct (IH _ _ _ E) as [A [B C]]; split; [|split; [exact B|simpl; now rewrite C]].
      intros m w Hm; destruct (A m w Hm) as [Hm'|[te' [t' [Ht' Rest]]]]; [now left|].
      right; exists te', t'; split; [now right|exact Rest].
Qed.

Lemma fold_detach_in : forall T cs c,
  In c (fold_left (fun cs t => detach_trigger t cs) T cs) ->
  In c cs /\ forall t, In t T -> tg_id c <> tg_id t.
Proof.
  induction T as [|t T IH]; intros cs c H; simpl in H.
  - split; [exact H|intros t []].
  - apply IH in H as [H1 H2].
    unfold detach_trigger in H1; apply filter_In in H1 as [H1 Hn].
    split; [exact H1|].
    intros t' [<-|Ht']; [|now apply H2].
    apply negb_true_iff, Nat.eqb_neq in Hn; exact Hn.
Qed.

Lemma applyTriggers_some : forall ts h,
  trigger_names_accepted ts = true ->
  exists h' l, applyTriggersToElement h ts = Some (h', l).
Proof.
  induction ts as [|te ts IH]; intros h H; simpl in *; [now exists h, []|].
  destruct (getTriggerData (tg_attrs te)) as [t|]; apply andb_true_iff in H as [H1 H2].
  - rewrite H1; simpl; apply IH; exact H2.
  - destruct (IH h H2) as (h' & l & E); rewrite E; now exists h', (LogWarn :: l).
Qed.

(** X13: when every well-formed trigger's event name gives attribute
    names [setAttribute] accepts (otherwise the code throws before its
    clean-up and the triggers stay attached), [buildElementTriggers]
    completes, leaves no [<trigger>] child attached (a malformed one is
    removed by the final clean-up, after one warning per malformed
    trigger), and every attribute name of the element is an original one
    or one of the six [on-<on>...] names of a well-formed trigger: the
    [condition] of a trigger is never compiled. *)
Theorem buildElementTriggers_consumes : forall h,
  trigger_names_accepted (th_triggers h) = true ->
  exists h' l,
  buildElementTriggers h = Some (h', l) /\
  th_triggers h' = [] /\
  l = repeat LogWarn (length (filter malformed_trigger (th_triggers h))) /\
  (forall m w, In (m, w) (th_attrs h') ->
     In m (map fst (th_attrs h)) \/
     exists te t, In te (th_triggers h) /\ getTriggerData (tg_attrs te) = Some t /\
                  In m (trigger_names t)).
Proof.
  intros h Hacc; unfold buildElementTriggers.
  destruct (th_triggers h) as [|te0 ts0] eqn:Ht.
  - exists h, []; rewrite Ht; split; [reflexivity|split; [first [exact Ht|reflexivity]|split; [reflexivity|]]].
    intros m w Hm; left; apply in_map_iff; now exists (m, w).
  - rewrite <- Ht in Hacc |- *.
    destruct (applyTriggers_some (th_triggers h) h Hacc) as (h1 & l1 & E); rewrite E.
    destruct (applyTriggers_inv _ _ _ _ E) as [A [B C]].
    eexists _, _; split; [reflexivity|].
    split; [|split; [exact C|exact A]].
    simpl; destruct (fold_left _ _ _) as [|c rest] eqn:F; [reflexivity|exfalso].
    assert (Hc : In c (fold_left (fun cs t => detach_trigger t cs) (th_triggers h) (th_triggers h1)))
      by (rewrite F; now left).
    apply fold_detach_in in Hc as [Hc1 Hc2].
    exact (Hc2 c (B c Hc1) eq_refl).
Qed.

(** X14: two well-formed triggers for the same event compile into one
    attribute: the later action replaces the earlier one; the key
    attribute is the later trigger's key, or, when the later trigger has
    none, the earlier trigger's key, or else what the element had. *)
Theorem triggers_same_event_last_wins : forall h te1 te2 t1 t2 h' l,
  getTriggerData (tg_attrs te1) = Some t1 -> getTriggerData (tg_attrs te2) = Some t2 ->
  tr_on t1 = tr_on t2 ->
  applyTriggersToElement h [te1; te2] = Some (h', l) ->
  get_attr (to_lower ("on-" ++ tr_on t2)) (th_attrs h') = Some (tr_action t2) /\
  get_attr (to_lower (("on-" ++ tr_on t2) ++ "-key")) (th_attrs h') =
    match tr_key t2, tr_key t1 with
    | Some k, _ => Some k
    | None, Some k => Some k
    | None, None => get_attr (to_lower (("on-" ++ tr_on t2) ++ "-key")) (th_attrs h)
    end.
Proof.
  intros h te1 te2 t1 t2 h' l G1 G2 Hon H; simpl in H.
  rewrite G1 in H; destruct (negb (all_chars name_char (tr_on t1))); [discriminate|].
  rewrite G2 in H; destruct (negb (all_chars name_char (tr_on t2))); [discriminate|].
  injection H as <- _; cbn [th_attrs].
  split; [apply compile_trigger_get_base; exact (getTriggerData_action _ _ G2)|].
  rewrite compile_trigger_get_key.
  destruct (tr_key t2) as [k2|]; [reflexivity|].
  rewrite <- Hon; apply compile_trigger_get_key.
Qed.



Lemma buildElementTriggers_consumes_witness :
  trigger_names_accepted [trig_cond; trig_broken] = true /\
  exists h' l,
    buildElementTriggers (mk_host [("class", "btn")] [trig_cond; trig_broken]) = Some (h', l) /\
    th_triggers h' = [] /\
    l = repeat LogWarn (length (filter malformed_trigger [trig_cond; trig_broken])) /\
    (forall m w, In (m, w) (th_attrs h') ->
       In m (map fst [("class", "btn")]) \/
       exists te t, In te [trig_cond; trig_broken] /\ getTriggerData (tg_attrs te) = Some t /\
                    In m (trigger_names t)).
Proof.
  split; [reflexivity|].
  apply (buildElementTriggers_consumes (mk_host [("class", "btn")] [trig_cond; trig_broken])).
  reflexivity.
Defined.

Lemma triggers_same_event_last_wins_witness :
  exists h' l,
    applyTriggersToElement (mk_host [] [trig_first; trig_second]) [trig_first; trig_second]
      = Some (h', l) /\
    get_attr "on-click" (th_attrs h') = Some "b()" /\
    get_attr "on-click-key" (th_attrs h') = Some "k1".
Proof.
  do 2 eexists; split; [reflexivity|].
  exact (triggers_same_event_last_wins (mk_host [] [trig_first; trig_second]) trig_first trig_second
           (mk_trigger (Some "k1") "click" None None "a()" false false false)
           (mk_trigger None "click" None None "b()" false false false) _ _
           eq_refl eq_refl eq_refl eq_refl).
Defined.


(** * More of [loadComponent] *)


(** X17: [loadTemplates] checks a template's id after trimming it but
    moves the element with its id as written; [loadComponent] looks the id
    up exactly, so a template whose id has surrounding whitespace is not
    found under its trimmed id. *)
Theorem loadComponent_padded_id_missed : forall doc c st d params cp n t raw,
  getElementById doc d = Some n -> t_id t = Some raw -> trim raw <> raw -> trim raw <> "" ->
  lookup_template c (trim raw) = None ->
  loadComponent doc (Some (fst (loadTemplates c [t]))) st d (trim raw) params cp =
  Some ([], [LogError]).
Proof.
  intros doc c st d params cp n t raw Hd Ht Hpad Hne Hl.
  simpl; unfold load_template; rewrite Ht.
  assert (Hne' := Hne); apply String.eqb_neq in Hne'; rewrite Hne', Hl; simpl.
  unfold loadComponent; rewrite Hd, Hne'.
  unfold lookup_template in *; rewrite find_app, Hl; simpl; rewrite Ht.
  destruct (String.eqb_spec raw (trim raw)) as [E|_]; [now rewrite <- E in Hpad|reflexivity].
Qed.

(** * More of the link and script handling *)

Lemma opt_str_eqb_refl : forall a, opt_str_eqb a a = true.
Proof. intros [a|]; simpl; [apply String.eqb_refl|reflexivity]. Qed.

Lemma opt_str_eqb_sym : forall a b, opt_str_eqb a b = opt_str_eqb b a.
Proof. intros [a|] [b|]; simpl; try reflexivity; apply String.eqb_sym. Qed.

Lemma same_link_refl : forall l, same_link l l = true.
Proof. intros [a b]; unfold same_link; simpl; now rewrite !opt_str_eqb_refl. Qed.

Lemma same_link_sym : forall l l', same_link l l' = same_link l' l.
Proof. intros [a b] [a' b']; unfold same_link; simpl; now rewrite (opt_str_eqb_sym a), (opt_str_eqb_sym b). Qed.

Lemma distinct_links_snoc : forall head l,
  distinct_links head = true -> existsb (same_link l) head = false ->
  distinct_links (app head [l]) = true.
Proof.
  induction head as [|y head IH]; intros l Hd Hl; simpl; [reflexivity|].
  simpl in Hd, Hl; apply andb_true_iff in Hd as [Hy Hd].
  apply orb_false_iff in Hl as [Hly Hl].
  rewrite IH by assumption.
  rewrite existsb_app; simpl; rewrite same_link_sym, Hly.
  apply negb_true_iff in Hy; now rewrite Hy.
Qed.

Lemma existsb_incl : forall (f : option string * option string -> bool) h h',
  (forall x, In x h -> In x h') -> existsb f h = true -> existsb f h' = true.
Proof.
  intros f h h' Hi H; apply existsb_exists in H as [x [Hx Hf]].
  apply existsb_exists; exists x; auto.
Qed.

Lemma handle_link_inv : forall head l,
  distinct_links head = true ->
  distinct_links (handle_link head l) = true /\
  (forall x, In x head -> In x (handle_link head l)) /\
  existsb (same_link l) (handle_link head l) = true.
Proof.
  intros head l Hd; unfold handle_link.
  destruct (existsb (same_link l) head) eqn:E; [split; [|split]; auto|].
  split; [now apply distinct_links_snoc|split].
  - intros x Hx; apply in_app_iff; now left.
  - rewrite existsb_app; simpl; now rewrite same_link_refl, orb_true_r.
Qed.

(** X18: [handleFragmentLinks] keeps the [<link>]s of [document.head]
    free of two with the same [rel] and [href]: every link of the node is
    then present there (moved, or found as a duplicate and dropped), and
    no link of the head is lost. *)
Theorem handleFragmentLinks_dedup : forall head n,
  distinct_links head = true ->
  distinct_links (handleFragmentLinks head n) = true /\
  (forall x, In x head -> In x (handleFragmentLinks head n)) /\
  (forall l, In l (node_links n) -> existsb (same_link l) (handleFragmentLinks head n) = true).
Proof.
  intros head n Hd.
  destruct n as [rel href|xs text|ls ss|]; simpl;
    try (split; [exact Hd|split; [auto|intros l []]]).
  - destruct (handle_link_inv head (rel, href) Hd) as [A [B C]].
    split; [exact A|split; [exact B|]].
    intros l [<-|[]]; exact C.
  - revert head Hd; induction ls as [|l0 ls IH]; intros head Hd; simpl.
    + split; [exact Hd|split; [auto|intros l []]].
    + destruct (handle_link_inv head l0 Hd) as [A [B C]].
      destruct (IH _ A) as [A' [B' C']].
      split; [exact A'|split; [auto|]].
      intros l [<-|Hl]; [|now apply C'].
      apply (existsb_incl _ (handle_link head l0)); [exact B'|exact C].
Qed.

Lemma run_script_inv : forall head s,
  NoDup head ->
  NoDup (fst (run_script head s)) /\
  (forall x, In x head -> In x (fst (run_script head s))) /\
  (forall src, get_attr "src" (fst s) = Some src -> src <> "" -> In src (fst (run_script head s))) /\
  length (snd (run_script head s)) = 1.
Proof.
  intros head [xs text] Hnd; unfold run_script; simpl.
  destruct (get_attr "src" xs) as [src'|] eqn:G; simpl.
  - destruct (String.eqb_spec src' "") as [->|Hne]; simpl.
    + split; [exact Hnd|split; [auto|split; [|reflexivity]]].
      intros src E Hs; injection E as <-; contradiction.
    + destruct (existsb (String.eqb src') head) eqn:Ex; simpl.
      * split; [exact Hnd|split; [auto|split; [|reflexivity]]].
        intros src E _; injection E as <-.
        apply existsb_exists in Ex as [x [Hx Ex]]; apply String.eqb_eq in Ex; now subst.
      * split; [|split; [|split; [|reflexivity]]].
        -- apply (Permutation_NoDup (Permutation_cons_append head src')).
           constructor; [|exact Hnd].
           intros Hin; assert (existsb (String.eqb src') head = true)
             by (apply existsb_exists; exists src'; now rewrite String.eqb_refl).
           congruence.
        -- intros x Hx; apply in_app_iff; now left.
        -- intros src E _; injection E as <-; apply in_app_iff; right; now left.
  - split; [exact Hnd|split; [auto|split; [|reflexivity]]].
    intros src E; discriminate.
Qed.

Lemma run_scripts_fold_inv : forall ss acc,
  NoDup (fst acc) ->
  let r := fold_left (fun acc s => let '(h, ops) := run_script (fst acc) s in (h, app (snd acc) ops))
             ss acc in
  NoDup (fst r) /\
  (forall x, In x (fst acc) -> In x (fst r)) /\
  (forall xs text src, In (xs, text) ss -> get_attr "src" xs = Some src -> src <> "" ->
                       In src (fst r)) /\
  length (snd r) = length (snd acc) + length ss.
Proof.
  induction ss as [|s ss IH]; intros acc Hnd; simpl.
  - split; [exact Hnd|split; [auto|split; [intros ? ? ? []|lia]]].
  - destruct (run_script_inv (fst acc) s Hnd) as [A [B [C D]]].
    destruct (run_script (fst acc) s) as [h ops] eqn:R; simpl in *.
    destruct (IH (h, app (snd acc) ops) A) as [A' [B' [C' D']]]; simpl in *.
    split; [exact A'|split; [auto|split]].
    + intros xs text src [E|Hin] Hs Hne; [subst s; apply B', C; assumption|now apply (C' xs text)].
    + rewrite D', length_app, D; lia.
Qed.

(** X19: [runScripts] never adds to [document.head] an external script
    whose [src] is already there: the [src]s of the head stay distinct,
    none is lost, and afterwards every external script of the node has its
    [src] in the head; each script of the node gives exactly one action
    (added to the head, dropped as a duplicate, or re-run inline). *)
Theorem runScripts_head_nodup : forall head n,
  NoDup head ->
  NoDup (fst (runScripts head n)) /\
  (forall x, In x head -> In x (fst (runScripts head n))) /\
  (forall xs text src, In (xs, text) (node_scripts n) -> get_attr "src" xs = Some src ->
                       src <> "" -> In src (fst (runScripts head n))) /\
  length (snd (runScripts head n)) = length (node_scripts n).
Proof.
  intros head n Hnd.
  destruct n as [rel href|xs text|ls ss|]; simpl.
  - split; [exact Hnd|split; [auto|split; [intros ? ? ? []|reflexivity]]].
  - destruct (run_script_inv head (xs, text) Hnd) as [A [B [C D]]].
    split; [exact A|split; [exact B|split; [|exact D]]].
    intros xs' text' src [E|[]] Hs Hne; injection E as -> ->; now apply C.
  - exact (run_scripts_fold_inv ss (head, []) Hnd).
  - split; [exact Hnd|split; [auto|split; [intros ? ? ? []|reflexivity]]].
Qed.

(** * More of [loadCodeElements] *)

Lemma has_attr_put_same : forall n v xs, has_attr n (put_attr n v xs) = true.
Proof. intros n v xs; unfold has_attr; now rewrite get_put_same. Qed.

Lemma load_code_block_node : forall fetch c, ce_node (fst (load_code_block fetch c)) = ce_node c.
Proof.
  intros fetch c; unfold load_code_block.
  destruct (get_attr "src" (ce_attrs c)); [|reflexivity].
  destruct (has_attr "data-loaded" (ce_attrs c)); [reflexivity|].
  destruct (fetch _); reflexivity.
Qed.

Lemma highlight_inline_loaded : forall c,
  has_attr "data-loaded" (ce_attrs (fst (highlight_inline c))) = true /\
  ce_node (fst (highlight_inline c)) = ce_node c.
Proof.
  intros c; unfold highlight_inline.
  destruct (has_attr "data-loaded" (ce_attrs c)) eqn:E; simpl; [now split|].
  split; [apply has_attr_put_same|reflexivity].
Qed.

Lemma loaded_untouched : forall fetch c,
  has_attr "data-loaded" (ce_attrs c) = true ->
  load_code_block fetch c = (c, []) /\ highlight_inline c = (c, []).
Proof.
  intros fetch c H; unfold load_code_block, highlight_inline; rewrite H.
  destruct (get_attr "src" (ce_attrs c)); split; reflexivity.
Qed.

(** X20: with Highlight.js loaded, [loadCodeElements] marks every
    [<code>] element [data-loaded] (a block whose fetch failed too, after
    showing the error text), so a later call fetches, highlights and logs
    nothing, whatever the network does: a failed block is never retried. *)
Theorem loadCodeElements_marks_all : forall fetch els els' ops,
  loadCodeElements true fetch els = (els', ops) ->
  map ce_node els' = map ce_node els /\
  Forall (fun c => has_attr "data-loaded" (ce_attrs c) = true) els' /\
  forall fetch', loadCodeElements true fetch' els' = (els', []).
Proof.
  intros fetch els els' ops H; unfold loadCodeElements in H; simpl in H.
  injection H as <- _.
  assert (All : Forall (fun c => has_attr "data-loaded" (ce_attrs c) = true)
                  (map fst (map highlight_inline (map fst (map (load_code_block fetch) els))))).
  { apply Forall_forall; intros c Hc.
    apply in_map_iff in Hc as [r [<- Hr]].
    apply in_map_iff in Hr as [c0 [<- _]].
    apply highlight_inline_loaded. }
  split; [|split; [exact All|]].
  - rewrite !map_map; apply map_ext; intros c.
    now rewrite (proj2 (highlight_inline_loaded _)), load_code_block_node.
  - intros fetch'; unfold loadCodeElements; simpl.
    set (l := map fst (map highlight_inline (map fst (map (load_code_block fetch) els)))) in *.
    assert (E1 : map (load_code_block fetch') l = map (fun c => (c, [])) l).
    { apply map_ext_in; intros c Hc; apply (proj1 (loaded_untouched fetch' c
               (proj1 (Forall_forall _ _) All c Hc))). }
    assert (P : forall (m : list code_el),
                  map fst (map (fun c => (c, @nil code_op)) m) = m /\
                  flat_map snd (map (fun c => (c, @nil code_op)) m) = []).
    { induction m as [|c m IHm]; simpl; [split; reflexivity|].
      destruct IHm as [-> ->]; split; reflexivity. }
    rewrite E1, (proj1 (P l)), (proj2 (P l)).
    assert (E2 : map highlight_inline l = map (fun c => (c, [])) l).
    { apply map_ext_in; intros c Hc; apply (proj2 (loaded_untouched fetch' c
               (proj1 (Forall_forall _ _) All c Hc))). }
    rewrite E2, (proj1 (P l)), (proj2 (P l)); reflexivity.
Qed.


Lemma loadComponent_padded_id_missed_witness :
  loadComponent handler_doc (Some (fst (loadTemplates [] [card_other]))) alice_store
    "out" "card" [] true = Some ([], [LogError]).
Proof.
  change "card" with (trim " card ").
  apply (loadComponent_padded_id_missed handler_doc [] alice_store "out" [] true 1 card_other " card ").
  - reflexivity.
  - reflexivity.
  - intros E; vm_compute in E; discriminate.
  - intros E; vm_compute in E; discriminate.
  - reflexivity.
Defined.

Lemma handleFragmentLinks_dedup_witness :
  distinct_links (handleFragmentLinks [(Some "stylesheet", Some "a.css")] links_node) = true /\
  (forall x, In x [(Some "stylesheet", Some "a.css")] ->
             In x (handleFragmentLinks [(Some "stylesheet", Some "a.css")] links_node)) /\
  (forall l, In l (node_links links_node) ->
             existsb (same_link l) (handleFragmentLinks [(Some "stylesheet", Some "a.css")] links_node)
             = true).
Proof.
  apply (handleFragmentLinks_dedup [(Some "stylesheet", Some "a.css")] links_node); reflexivity.
Defined.

Lemma runScripts_head_nodup_witness :
  NoDup (fst (runScripts ["/x.js"] scripts_node)) /\
  (forall x, In x ["/x.js"] -> In x (fst (runScripts ["/x.js"] scripts_node))) /\
  (forall xs text src, In (xs, text) (node_scripts scripts_node) -> get_attr "src" xs = Some src ->
                       src <> "" -> In src (fst (runScripts ["/x.js"] scripts_node))) /\
  length (snd (runScripts ["/x.js"] scripts_node)) = length (node_scripts scripts_node).
Proof.
  apply (runScripts_head_nodup ["/x.js"] scripts_node).
  apply NoDup_cons; [intros []|apply NoDup_nil].
Defined.

Lemma loadCodeElements_marks_all_witness :
  exists els' ops,
    loadCodeElements true code_fetch code_els = (els', ops) /\
    map ce_node els' = map ce_node code_els /\
    Forall (fun c => has_attr "data-loaded" (ce_attrs c) = true) els' /\
    forall fetch', loadCodeElements true fetch' els' = (els', []).
Proof.
  do 2 eexists; split; [reflexivity|].
  eapply (loadCodeElements_marks_all code_fetch code_els); reflexivity.
Defined.

(** ** The page-level signal of the fragment pass *)






(** X22: text with no ['{'] in it comes out of [substituteParams]
    unchanged, whatever the parameters and the store hold. *)
Theorem substituteParams_no_brace : forall st params html,
  all_chars (fun a => negb (is_char "{" a)) html = true ->
  substituteParams st html params = html.
Proof.
  intros st params html H.
  rewrite <- (str_app_nil_r html) at 1.
  rewrite (substituteParams_plain_prefix st params html "" H).
  apply str_app_nil_r.
Qed.

Lemma substituteParams_no_brace_witness :
  all_chars (fun a => negb (is_char "{" a)) "<p>plain} text</p>" = true /\
  substituteParams (JObj [("p", JStr "x")]) "<p>plain} text</p>" [("p", JStr "y")]
    = "<p>plain} text</p>".
Proof.
  split; [reflexivity|].
  apply substituteParams_no_brace; reflexivity.
Defined.
